(** * A command-line task manager: model and verified properties

    Shallow embedding of [main.cpp]: the [Task] record and its JSON
    mapping, the [TaskManager] class (add, list, mark done, delete, save,
    load), the command tokenizer and the read-eval-print loop of [main].

    Conventions.
    - A C++ [int] is a [Z] kept in the 32-bit two's-complement range; the
      arithmetic the program performs on it ([next_id++], [task.id + 1],
      the narrowing conversion from a JSON number) is followed by [wrap].
    - [std::string] is [string]; [std::vector] is [list].
    - The console and the backing file are an explicit [World] threaded
      through a small state monad [IO].
    - [json.hpp] (nlohmann::json) is not part of the sources.  The document
      type and the handful of operations the program calls are modelled in
      [Module Json]; the text of the file is represented by the document
      the library reads from it (so writing [dump] and reading it back is
      the identity on documents, as it is for the valid UTF-8 strings the
      library serializes), or by [Malformed] when the library rejects the
      text.
    - Signed overflow is undefined in ISO C++; the model takes the
      two's-complement result the usual compilers produce.
    - [std::sort] is not stable and its algorithm is the library's: the
      program is modelled over every function that meets the contract of
      [std::sort] (class [StdSort]), and the theorems hold for all of
      them. *)

From Stdlib Require Import ZArith List String Ascii Bool Lia.
From Stdlib Require Import Permutation Sorting.Sorted DecimalString DecimalPos.
Import ListNotations.

Open Scope string_scope.
Open Scope list_scope.
Open Scope Z_scope.

(* ------------------------------------------------------------------ *)
(** ** Machine integers *)

Module Int.

Definition int_min : Z := - 2147483648.
Definition int_max : Z := 2147483647.

Definition in_range (z : Z) : Prop := int_min <= z <= int_max.

Definition in_rangeb (z : Z) : bool := (int_min <=? z) && (z <=? int_max).

(** Reduction of a mathematical integer to the 32-bit signed range. *)
Definition wrap (z : Z) : Z := (z + 2147483648) mod 4294967296 - 2147483648.

End Int.

(* ------------------------------------------------------------------ *)
(** ** Strings and characters *)

Definition endl : string := String "010"%char EmptyString.
Definition dquote : ascii := "034"%char.
Definition backslash : ascii := "092"%char.

(** [std::isspace] in the "C" locale: space, \t, \n, \v, \f, \r. *)
Definition isspace (c : ascii) : bool :=
  let n := nat_of_ascii c in
  (Nat.eqb n 32 || (Nat.leb 9 n && Nat.leb n 13))%bool.

Definition isdigit (c : ascii) : bool :=
  let n := nat_of_ascii c in (Nat.leb 48 n && Nat.leb n 57)%bool.

Definition digit_value (c : ascii) : Z := Z.of_nat (nat_of_ascii c) - 48.

(** [operator<<(std::ostream&, int)]. *)
Definition show_int (z : Z) : string := NilEmpty.string_of_int (Z.to_int z).

Definition push_char (s : string) (c : ascii) : string :=
  (s ++ String c EmptyString)%string.

(* ------------------------------------------------------------------ *)
(** ** The JSON documents of nlohmann::json *)

Module Json.

(** Modelled from the spec: [json.hpp], the JSON library the program
    includes, is not among the sources.  The spec gives the format of the
    file -- a JSON array of objects with an integer [id], a string
    [description], a boolean [completed] and an integer [priority] -- and
    names the library as a general-purpose dependency; the type and the
    operations of this module follow the documented behaviour of
    nlohmann::json for the calls the program makes.

    Documents.  An object is a [std::map]: its bindings are kept in
    increasing key order, one per key.  Floating-point numbers are left
    out: [Task::to_json] never produces one. *)
#[warnings="-register-all"]
Inductive json : Type :=
| JNull
| JBool (b : bool)
| JNumber (n : Z)
| JString (s : string)
| JArray (elems : list json)
| JObject (members : list (string * json)).

(** [std::map::emplace]: an existing key keeps its value. *)
Fixpoint emplace (k : string) (v : json) (m : list (string * json))
  : list (string * json) :=
  match m with
  | [] => [(k, v)]
  | (k', v') :: m' =>
      match String.compare k k' with
      | Lt => (k, v) :: m
      | Eq => m
      | Gt => (k', v') :: emplace k v m'
      end
  end.

(** [json{{k1, v1}, {k2, v2}, ...}]: an initializer list of pairs whose
    first components are strings builds an object. *)
Definition object (init : list (string * json)) : json :=
  JObject (fold_left (fun m kv => emplace (fst kv) (snd kv) m) init []).

Fixpoint lookup (k : string) (m : list (string * json)) : option json :=
  match m with
  | [] => None
  | (k', v) :: m' => if String.eqb k k' then Some v else lookup k m'
  end.

(** [j.at(key)]; [None] stands for the exception the library throws
    (type_error.304 on a non-object, out_of_range.403 on a missing key). *)
Definition at_key (j : json) (k : string) : option json :=
  match j with
  | JObject m => lookup k m
  | _ => None
  end.

(** Conversions [json -> int], [json -> std::string], [json -> bool];
    [None] stands for type_error.302.  The arithmetic conversion accepts
    a boolean and narrows a 64-bit number to [int]. *)
Definition get_int (j : json) : option Z :=
  match j with
  | JNumber n => Some (Int.wrap n)
  | JBool b => Some (if b then 1 else 0)
  | _ => None
  end.

Definition get_string (j : json) : option string :=
  match j with
  | JString s => Some s
  | _ => None
  end.

Definition get_bool (j : json) : option bool :=
  match j with
  | JBool b => Some b
  | _ => None
  end.

(** [j.push_back(v)]: null becomes a one-element array, an array grows.
    On any other document the library throws type_error.308; the program
    only calls it on a document that starts as null. *)
Definition push_back (j v : json) : json :=
  match j with
  | JNull => JArray [v]
  | JArray l => JArray (l ++ [v])
  | _ => j
  end.

(** The elements visited by [for (const auto& item : j)]: none for null,
    the elements of an array, the values of an object, and the document
    itself for a primitive. *)
Definition items (j : json) : list json :=
  match j with
  | JNull => []
  | JArray l => l
  | JObject m => map snd m
  | _ => [j]
  end.

Definition keys (j : json) : list string :=
  match j with
  | JObject m => map fst m
  | _ => []
  end.

Definition is_object (j : json) : bool :=
  match j with JObject _ => true | _ => false end.

Definition is_array (j : json) : bool :=
  match j with JArray _ => true | _ => false end.

Definition is_integer (j : json) : bool :=
  match j with JNumber _ => true | _ => false end.

Definition is_string (j : json) : bool :=
  match j with JString _ => true | _ => false end.

Definition is_boolean (j : json) : bool :=
  match j with JBool _ => true | _ => false end.

End Json.

Import Json.

(* ------------------------------------------------------------------ *)
(** ** Tasks *)

Record Task : Type := mkTask {
  id : Z;
  description : string;
  completed : bool;
  priority : Z   (* 1=high, 2=medium, 3=low *)
}.

Definition to_json (t : Task) : json :=
  Json.object
    [ ("id"%string, JNumber (id t));
      ("description"%string, JString (description t));
      ("completed"%string, JBool (completed t));
      ("priority"%string, JNumber (priority t)) ].

Definition option_bind {A B : Type} (o : option A) (f : A -> option B)
  : option B :=
  match o with
  | Some a => f a
  | None => None
  end.

Notation "'try' x <- o ; k" := (option_bind o (fun x => k))
  (at level 10, x name, o at level 100, k at level 200).

(** [Task::from_json]; [None] when one of the [at] calls or conversions
    throws. *)
Definition from_json (j : json) : option Task :=
  try i <- option_bind (at_key j "id") get_int;
  try d <- option_bind (at_key j "description") get_string;
  try c <- option_bind (at_key j "completed") get_bool;
  try p <- option_bind (at_key j "priority") get_int;
  Some (mkTask i d c p).

(** The invariant of the C++ type: both [int] fields are in range. *)
Definition task_ok (t : Task) : Prop :=
  Int.in_range (id t) /\ Int.in_range (priority t).

(* ------------------------------------------------------------------ *)
(** ** The world: backing file and console *)

Inductive file_content : Type :=
| Absent                 (* std::ifstream cannot open the file *)
| Malformed              (* text on which [file >> j] throws *)
| Document (j : json).   (* text of the document [j] *)

Record File : Type := mkFile {
  content : file_content;
  writable : bool        (* whether std::ofstream can open the file *)
}.

Record istream : Type := mkIstream {
  buf : string;
  eofbit : bool;
  failbit : bool
}.

Record World : Type := mkWorld {
  file : File;
  cin : istream;
  cout : list string;
  cerr : list string
}.

Definition IO (A : Type) : Type := World -> A * World.

Definition ret {A : Type} (a : A) : IO A := fun w => (a, w).

Definition bind {A B : Type} (c : IO A) (k : A -> IO B) : IO B :=
  fun w => let (a, w') := c w in k a w'.

Notation "x <- c ;; k" := (bind c (fun x => k))
  (at level 61, c at next level, right associativity).
Notation "c ;; k" := (bind c (fun _ => k))
  (at level 61, right associativity).

Definition print (s : string) : IO unit :=
  fun w => (tt, mkWorld (file w) (cin w) (cout w ++ [s]) (cerr w)).

Definition eprint (s : string) : IO unit :=
  fun w => (tt, mkWorld (file w) (cin w) (cout w) (cerr w ++ [s])).

Definition read_file : IO file_content :=
  fun w => (content (file w), w).

(** [std::ofstream file(filename); if (file.is_open()) { file << text; }]:
    returns whether the stream could be opened. *)
Definition write_file (j : json) : IO bool :=
  fun w =>
    if writable (file w)
    then (true, mkWorld (mkFile (Document j) true) (cin w) (cout w) (cerr w))
    else (false, w).

(* ------------------------------------------------------------------ *)
(** ** TaskManager *)

Record TaskManager : Type := mkManager {
  tasks : list Task;
  next_id : Z
}.

Definition task_json (j : json) (task : Task) : json :=
  push_back j (to_json task).

(** The document [save_tasks] builds: [json j;] is null, and every task
    is pushed onto it. *)
Definition tasks_document (ts : list Task) : json :=
  fold_left task_json ts JNull.

Definition save_tasks (m : TaskManager) : IO unit :=
  opened <- write_file (tasks_document (tasks m)) ;;
  if (opened : bool) then ret tt
  else eprint ("Error saving tasks to file." ++ endl)%string.

Definition add_task (description : string) (priority : Z) (m : TaskManager)
  : IO TaskManager :=
  let m' := mkManager (tasks m ++ [mkTask (next_id m) description false priority])
                      (Int.wrap (next_id m + 1)) in
  save_tasks m' ;;
  print ("Task added with ID: " ++ show_int (Int.wrap (next_id m' - 1)) ++ endl)%string ;;
  ret m'.

(** The comparison passed to [std::sort]. *)
Definition task_lt (a b : Task) : bool :=
  if negb (priority a =? priority b) then priority a <? priority b
  else id a <? id b.

(** What [std::sort] asks of its comparison: a strict weak ordering. *)
Definition strict_weak_order {A : Type} (comp : A -> A -> bool) : Prop :=
  (forall a b, comp a b = true -> comp b a = false)
  /\ (forall a b c, comp a c = true -> comp a b = true \/ comp b c = true).

(** [std::sort(first, last, comp)].  The standard fixes its result up to
    the order of equivalent elements: a rearrangement of the range in
    which no element is followed by one that [comp] puts before it.  The
    algorithm belongs to the C++ library in use, and is not stable, so
    the program is modelled over any function that meets this contract. *)
Class StdSort : Type := {
  std_sort : forall {A : Type}, (A -> A -> bool) -> list A -> list A;
  std_sort_permutation : forall (A : Type) (comp : A -> A -> bool) (l : list A),
    strict_weak_order comp -> Permutation l (std_sort comp l);
  std_sort_sorted : forall (A : Type) (comp : A -> A -> bool) (l : list A),
    strict_weak_order comp ->
    StronglySorted (fun a b => comp b a = false) (std_sort comp l)
}.

(** One function that meets the contract, used to run the program on
    concrete inputs: insertion sort. *)
Fixpoint insert_sorted {A : Type} (comp : A -> A -> bool) (t : A) (l : list A)
  : list A :=
  match l with
  | [] => [t]
  | u :: l' => if comp u t then u :: insert_sorted comp t l' else t :: u :: l'
  end.

Definition insertion_sort {A : Type} (comp : A -> A -> bool) (l : list A)
  : list A :=
  fold_right (insert_sorted comp) [] l.

Section Program.

Context {library : StdSort}.

(** [std::sort(sorted_tasks.begin(), sorted_tasks.end(), task_lt)]: the
    result the library in use gives.  Tasks that agree on priority and id
    may come in any order (see [sort_tasks_unique] for the case of distinct
    ids, where the result is determined). *)
Definition sort_tasks (l : list Task) : list Task := std_sort task_lt l.

Definition priority_str (p : Z) : string :=
  match p with
  | 1 => "HIGH"
  | 2 => "MEDIUM"
  | 3 => "LOW"
  | _ => "UNKNOWN"
  end.

Definition task_row (task : Task) : string :=
  let status : string := if completed task then "[DONE]" else "[PENDING]" in
  ("ID: " ++ show_int (id task)
     ++ " | " ++ status
     ++ " | PRIORITY: " ++ priority_str (priority task)
     ++ " | " ++ description task ++ endl)%string.

(** The tasks for which the loop of [list_tasks] prints a row. *)
Definition shown_tasks (show_completed : bool) (sorted_tasks : list Task)
  : list Task :=
  filter (fun task => negb (negb show_completed && completed task))
         sorted_tasks.

Fixpoint print_all (rows : list string) : IO unit :=
  match rows with
  | [] => ret tt
  | r :: rows' => print r ;; print_all rows'
  end.

Definition list_tasks (show_completed : bool) (m : TaskManager) : IO unit :=
  match tasks m with
  | [] => print ("No tasks found." ++ endl)%string
  | _ =>
      let sorted_tasks := sort_tasks (tasks m) in
      print (endl ++ "TASK LIST" ++ endl)%string ;;
      print ("---------" ++ endl)%string ;;
      print_all (map task_row (shown_tasks show_completed sorted_tasks)) ;;
      print endl
  end.

(** [std::find_if]: position of the first element satisfying [p], or the
    length of the list (the end iterator). *)
Fixpoint find_if (p : Task -> bool) (l : list Task) : nat :=
  match l with
  | [] => 0%nat
  | t :: l' => if p t then 0%nat else S (find_if p l')
  end.

Fixpoint update_at (n : nat) (f : Task -> Task) (l : list Task) : list Task :=
  match l, n with
  | [], _ => []
  | t :: l', O => f t :: l'
  | t :: l', S n' => t :: update_at n' f l'
  end.

Definition set_completed (t : Task) : Task :=
  mkTask (id t) (description t) true (priority t).

Definition mark_done (i : Z) (m : TaskManager) : IO TaskManager :=
  let it := find_if (fun t => id t =? i) (tasks m) in
  if negb (Nat.eqb it (List.length (tasks m))) then
    let m' := mkManager (update_at it set_completed (tasks m)) (next_id m) in
    save_tasks m' ;;
    print ("Task marked as completed!" ++ endl)%string ;;
    ret m'
  else
    print ("Task with ID " ++ show_int i ++ " not found." ++ endl)%string ;;
    ret m.

(** [std::remove_if]: the elements that do not satisfy [p], in their
    order, moved to the front; the returned iterator is the end of that
    prefix, and what lies behind it is unspecified.  The model returns the
    prefix; the iterator is its length. *)
Fixpoint remove_if (p : Task -> bool) (l : list Task) : list Task :=
  match l with
  | [] => []
  | t :: l' => if p t then remove_if p l' else t :: remove_if p l'
  end.

Definition delete_task (i : Z) (m : TaskManager) : IO TaskManager :=
  let kept := remove_if (fun t => id t =? i) (tasks m) in
  let it := List.length kept in
  if negb (Nat.eqb it (List.length (tasks m))) then
    let m' := mkManager kept (next_id m) in   (* tasks.erase(it, tasks.end()) *)
    save_tasks m' ;;
    print ("Task deleted successfully!!" ++ endl)%string ;;
    ret m'
  else
    print ("Task with ID " ++ show_int i ++ " not found." ++ endl)%string ;;
    ret m.

(** The loop of [load_tasks]: [None] when [Task::from_json] throws. *)
Fixpoint load_items (its : list json) (ts : list Task) (nid : Z)
  : option (list Task * Z) :=
  match its with
  | [] => Some (ts, nid)
  | item :: its' =>
      try task <- from_json item;
      load_items its' (ts ++ [task])
                 (if id task >=? nid then Int.wrap (id task + 1) else nid)
  end.

Definition load_failed : IO TaskManager :=
  eprint ("Error loading tasks from file. Starting with empty task list." ++ endl)%string ;;
  ret (mkManager [] 1).

Definition load_tasks (m : TaskManager) : IO TaskManager :=
  c <- read_file ;;
  match c with
  | Absent => save_tasks m ;; ret m
  | Malformed => load_failed
  | Document j =>
      match load_items (Json.items j) [] (next_id m) with
      | Some (ts, nid) => ret (mkManager ts nid)
      | None => load_failed
      end
  end.

(** The constructor: [tasks] empty, [next_id(1)], then [load_tasks()]. *)
Definition new_manager : IO TaskManager := load_tasks (mkManager [] 1).

(* ------------------------------------------------------------------ *)
(** ** Command parsing *)

Definition show_help : IO unit :=
  print (endl ++ "COMMAND LINE TASK MANAGER" ++ endl)%string ;;
  print ("--------------------------" ++ endl)%string ;;
  print ("USAGE:" ++ endl)%string ;;
  print ("  add <description> [-p high|medium|low]  Add a new task" ++ endl)%string ;;
  print ("  list                                    List all tasks" ++ endl)%string ;;
  print ("  list pending                            List pending tasks only" ++ endl)%string ;;
  print ("  done <id>                               Mark task as completed" ++ endl)%string ;;
  print ("  delete <id>                             Delete a task" ++ endl)%string ;;
  print ("  help                                    Show this help message" ++ endl)%string ;;
  print ("  exit                                    Exit the program" ++ endl ++ endl)%string ;;
  print ("EXAMPLES:" ++ endl)%string ;;
  print ("  add " ++ String dquote "Buy groceries" ++ String dquote " -p high" ++ endl)%string ;;
  print ("  add " ++ String dquote "Walk the dog" ++ String dquote endl)%string ;;
  print ("  done 2" ++ endl ++ endl)%string.

Definition parse_priority (priority_str : string) : Z :=
  if String.eqb priority_str "high" then 1
  else if String.eqb priority_str "low" then 3
  else 2.

(** The states of [iss >> std::quoted(token)] as it walks the line. *)
Inductive lexer : Type :=
| Between                  (* [is >> c] skipping white space *)
| Bare (token : string)    (* first character was no quote: [is >> token] *)
| Quoted (token : string)  (* between the delimiters, white space kept *)
| Escaped (token : string) (* just after the escape character *).

(** [split_command]: the tokens pushed by
    [while (iss >> std::quoted(token)) tokens.push_back(token)].
    A bare token ends at white space or at the end of the line; a quoted
    token ends at the closing quote, and when the line ends first the
    extraction fails and the token is not pushed. *)
Fixpoint lex (st : lexer) (s : string) : list string :=
  match s with
  | EmptyString =>
      match st with
      | Bare token => [token]
      | _ => []
      end
  | String c s' =>
      match st with
      | Between =>
          if isspace c then lex Between s'
          else if Ascii.eqb c dquote then lex (Quoted EmptyString) s'
          else lex (Bare (String c EmptyString)) s'
      | Bare token =>
          if isspace c then token :: lex Between s'
          else lex (Bare (push_char token c)) s'
      | Quoted token =>
          if Ascii.eqb c backslash then lex (Escaped token) s'
          else if Ascii.eqb c dquote then token :: lex Between s'
          else lex (Quoted (push_char token c)) s'
      | Escaped token => lex (Quoted (push_char token c)) s'
      end
  end.

Definition split_command (command : string) : list string :=
  lex Between command.

Fixpoint skip_space (s : string) : string :=
  match s with
  | String c s' => if isspace c then skip_space s' else s
  | EmptyString => s
  end.

(** Value of the leading decimal digits of [s], continuing from [acc]. *)
Fixpoint leading_digits (s : string) (acc : Z) : Z :=
  match s with
  | String c s' =>
      if isdigit c then leading_digits s' (10 * acc + digit_value c) else acc
  | EmptyString => acc
  end.

Definition starts_with_digit (s : string) : bool :=
  match s with
  | String c _ => isdigit c
  | EmptyString => false
  end.

(** [std::stoi(str)]: [strtol] in base 10 on the longest prefix made of
    optional white space, an optional sign and digits; whatever follows is
    ignored.  [None] stands for [std::invalid_argument] (no digit) and for
    [std::out_of_range] (the value does not fit an [int]). *)
Definition stoi (str : string) : option Z :=
  let s := skip_space str in
  let '(negative, s) :=
    match s with
    | String c s' =>
        if Ascii.eqb c "-" then (true, s')
        else if Ascii.eqb c "+" then (false, s')
        else (false, s)
    | EmptyString => (false, s)
    end in
  if starts_with_digit s then
    let v := leading_digits s 0 in
    let v := if (negative : bool) then - v else v in
    if Int.in_rangeb v then Some v else None
  else None.

(** The loop over [tokens[2..]] of the [add] command. *)
Fixpoint add_arguments (rest : list string) (description : string)
  (priority : Z) : string * Z :=
  match rest with
  | [] => (description, priority)
  | t :: rest' =>
      if String.eqb t "-p" then
        match rest' with
        | v :: rest'' => add_arguments rest'' description (parse_priority v)
        | [] => ((description ++ " " ++ t)%string, priority)
        end
      else add_arguments rest' (description ++ " " ++ t)%string priority
  end.

(* ------------------------------------------------------------------ *)
(** ** The read-eval-print loop *)

(** The characters of [s] before the first newline, and what follows that
    newline ([None] when the end of input comes first). *)
Fixpoint take_line (s : string) : string * option string :=
  match s with
  | EmptyString => (EmptyString, None)
  | String c s' =>
      if Ascii.eqb c "010"%char then (EmptyString, Some s')
      else let (l, r) := take_line s' in (String c l, r)
  end.

Definition good (ins : istream) : bool := negb (eofbit ins) && negb (failbit ins).

(** [std::getline(ins, line)].  On a stream that is not good the sentry
    fails: [failbit] is set and [line] keeps its value.  Otherwise [line]
    is erased and filled up to the newline; reaching the end of input sets
    [eofbit], and also [failbit] when nothing was extracted. *)
Definition istream_getline (ins : istream) (line : string) : istream * string :=
  if good ins then
    match take_line (buf ins) with
    | (l, Some rest) => (mkIstream rest false false, l)
    | (l, None) =>
        (mkIstream EmptyString true (String.eqb l EmptyString), l)
    end
  else (mkIstream (buf ins) (eofbit ins) true, line).

Definition getline (line : string) : IO string :=
  fun w =>
    let (ins, line') := istream_getline (cin w) line in
    (line', mkWorld (file w) ins (cout w) (cerr w)).

Inductive control : Type :=
| Next       (* fall out of the if-chain, next iteration *)
| Break      (* [break] *)
| Crash.     (* [tokens[0]] on an empty vector: undefined behaviour *)

(** The body of the loop after the empty-line test. *)
Definition dispatch (tokens : list string) (m : TaskManager)
  : IO (control * TaskManager) :=
  match tokens with
  | [] => ret (Crash, m)
  | command :: _ =>
      let size := List.length tokens in
      if String.eqb command "exit" then ret (Break, m)
      else if String.eqb command "help" then
        show_help ;; ret (Next, m)
      else if String.eqb command "add" && Nat.leb 2 size then
        let description := nth 1 tokens EmptyString in
        let '(description, priority) :=
          add_arguments (skipn 2 tokens) description 2 in
        m' <- add_task description priority m ;;
        ret (Next, m')
      else if String.eqb command "list" then
        let show_completed :=
          negb (Nat.ltb 1 size && String.eqb (nth 1 tokens EmptyString) "pending") in
        list_tasks show_completed m ;; ret (Next, m)
      else if String.eqb command "done" && Nat.eqb size 2 then
        match stoi (nth 1 tokens EmptyString) with
        | Some i => m' <- mark_done i m ;; ret (Next, m')
        | None => print ("Invalid task ID." ++ endl)%string ;; ret (Next, m)
        end
      else if String.eqb command "delete" && Nat.eqb size 2 then
        match stoi (nth 1 tokens EmptyString) with
        | Some i => m' <- delete_task i m ;; ret (Next, m')
        | None => print ("Invalid task ID." ++ endl)%string ;; ret (Next, m)
        end
      else
        print ("Unknown command. Type 'help' for available commands." ++ endl)%string ;;
        ret (Next, m)
  end.

(** One iteration of [while (true)]: prompt, read, dispatch. *)
Definition iteration (m : TaskManager) (line : string)
  : IO (control * TaskManager * string) :=
  print "> " ;;
  line' <- getline line ;;
  if String.eqb line' EmptyString then ret (Next, m, line')
  else
    r <- dispatch (split_command line') m ;;
    ret (fst r, snd r, line').

Inductive outcome : Type :=
| Left_loop (m : TaskManager) (w : World)             (* [break] was reached *)
| Undefined (w : World)                               (* [tokens[0]] out of range *)
| Still_running (m : TaskManager) (line : string) (w : World).

(** [fuel] iterations of the loop. *)
Fixpoint main_loop (fuel : nat) (m : TaskManager) (line : string) (w : World)
  : outcome :=
  match fuel with
  | O => Still_running m line w
  | S fuel' =>
      match iteration m line w with
      | (Next, m', line', w') => main_loop fuel' m' line' w'
      | (Break, m', _, w') => Left_loop m' w'
      | (Crash, _, _, w') => Undefined w'
      end
  end.

Definition main (fuel : nat) (w : World) : outcome :=
  let (manager, w) := new_manager w in
  let (_, w) := show_help w in
  match main_loop fuel manager EmptyString w with
  | Left_loop m w =>
      let (_, w) := print ("Goodbye!" ++ endl)%string w in Left_loop m w
  | o => o
  end.

(** A world whose standard input holds [input], with nothing printed yet. *)
Definition start (f : File) (input : string) : World :=
  mkWorld f (mkIstream input false false) [] [].

(* ------------------------------------------------------------------ *)
(** ** Vocabulary of the properties *)

(** A sequence of [add] operations, each with its description and
    priority argument. *)
Fixpoint add_all (adds : list (string * Z)) (m : TaskManager)
  : IO TaskManager :=
  match adds with
  | [] => ret m
  | (d, p) :: adds' => m' <- add_task d p m ;; add_all adds' m'
  end.

(** The tasks a sequence of [add] operations is expected to create when
    the first of them receives the id [n]. *)
Fixpoint numbered (n : Z) (adds : list (string * Z)) : list Task :=
  match adds with
  | [] => []
  | (d, p) :: adds' => mkTask n d false p :: numbered (n + 1) adds'
  end.

(** "Priority ascending, then id ascending". *)
Definition by_priority_then_id (a b : Task) : Prop :=
  priority a < priority b \/ (priority a = priority b /\ id a <= id b).

(** Where the loop of the [add] command stands after [rest]: [true] when
    its last token is a [-p] still waiting for a value. *)
Fixpoint flag_pending (rest : list string) : bool :=
  match rest with
  | [] => false
  | t :: rest' =>
      if String.eqb t "-p" then
        match rest' with
        | [] => true
        | _ :: rest'' => flag_pending rest''
        end
      else flag_pending rest'
  end.

(** Tokens joined by single spaces after [d]. *)
Definition space_joined (d : string) (rest : list string) : string :=
  fold_left (fun acc t => (acc ++ " " ++ t)%string) rest d.

(** The four members [Task::to_json] writes, in the key order of the
    object. *)
Definition task_members (t : Task) : list (string * json) :=
  [ ("completed", JBool (completed t));
    ("description", JString (description t));
    ("id", JNumber (id t));
    ("priority", JNumber (priority t)) ].

(** The next-id counter [load_tasks] reaches from [nid] over [ts]. *)
Definition bump (nid : Z) (t : Task) : Z :=
  if id t >=? nid then Int.wrap (id t + 1) else nid.

(** The session of the specification's scenario: after [delete 2] the
    store still holds the completed task 1 when [list pending] is run. *)
Definition scenario : string :=
  ("add " ++ String dquote "Buy milk" ++ String dquote " -p high" ++ endl
   ++ "add " ++ String dquote "Clean" ++ String dquote endl
   ++ "list" ++ endl
   ++ "done 1" ++ endl
   ++ "list pending" ++ endl
   ++ "delete 2" ++ endl
   ++ "list pending" ++ endl
   ++ "done 99" ++ endl
   ++ "exit" ++ endl)%string.

(** The file mirrors the store: it holds the document [save_tasks]
    builds from the tasks in memory, and it can be written. *)
Definition synced (m : TaskManager) (w : World) : Prop :=
  content (file w) = Document (tasks_document (tasks m))
  /\ writable (file w) = true.

(** The ids of the store are distinct and lie below the counter. *)
Definition distinct_ids (m : TaskManager) : Prop :=
  NoDup (map id (tasks m))
  /\ Forall (fun t => id t < next_id m) (tasks m).

(** One more than the greatest id of [ts], and at least 1. *)
Definition above_ids (ts : list Task) : Z :=
  fold_right (fun t n => Z.max (id t + 1) n) 1 ts.

(** [w] followed by what a command printed on [cout]; nothing else of
    the world differs. *)
Definition printed (out : list string) (w : World) : World :=
  mkWorld (file w) (cin w) (cout w ++ out) (cerr w).

(** No character of [s] satisfies [p]. *)
Fixpoint none_of (p : ascii -> bool) (s : string) : Prop :=
  match s with
  | EmptyString => True
  | String c s' => p c = false /\ none_of p s'
  end.

(** Every character of [s] is white space. *)
Fixpoint blank (s : string) : Prop :=
  match s with
  | EmptyString => True
  | String c s' => isspace c = true /\ blank s'
  end.

(** A token that needs no quoting: not empty, free of white space, and
    not starting with the quote character. *)
Definition plain (t : string) : Prop :=
  match t with
  | EmptyString => False
  | String c _ => Ascii.eqb c dquote = false /\ none_of isspace t
  end.

(** [s] with a backslash before each quote and each backslash. *)
Fixpoint escape (s : string) : string :=
  match s with
  | EmptyString => EmptyString
  | String c s' =>
      if Ascii.eqb c backslash || Ascii.eqb c dquote
      then String backslash (String c (escape s'))
      else String c (escape s')
  end.

(** [s] between quotes, escaped. *)
Definition quoted (s : string) : string :=
  String dquote (escape s ++ String dquote EmptyString).

Definition is_newline (c : ascii) : bool := Ascii.eqb c "010"%char.

(** The world in which the command of a line runs: the prompt has been
    printed and the line, with its newline, has been taken from [cin]. *)
Definition after_reading (rest : string) (w : World) : World :=
  mkWorld (file w) (mkIstream rest false false) (cout w ++ ["> "]) (cerr w).

(** What [show_help] writes, piece by piece. *)
Definition help_banner : list string :=
  [ (endl ++ "COMMAND LINE TASK MANAGER" ++ endl)%string;
    ("--------------------------" ++ endl)%string;
    ("USAGE:" ++ endl)%string;
    ("  add <description> [-p high|medium|low]  Add a new task" ++ endl)%string;
    ("  list                                    List all tasks" ++ endl)%string;
    ("  list pending                            List pending tasks only" ++ endl)%string;
    ("  done <id>                               Mark task as completed" ++ endl)%string;
    ("  delete <id>                             Delete a task" ++ endl)%string;
    ("  help                                    Show this help message" ++ endl)%string;
    ("  exit                                    Exit the program" ++ endl ++ endl)%string;
    ("EXAMPLES:" ++ endl)%string;
    ("  add " ++ String dquote "Buy groceries" ++ String dquote " -p high" ++ endl)%string;
    ("  add " ++ String dquote "Walk the dog" ++ String dquote endl)%string;
    ("  done 2" ++ endl ++ endl)%string ].

(* ------------------------------------------------------------------ *)
(** ** Basic facts *)

Lemma wrap_in_range : forall z, Int.in_range z -> Int.wrap z = z.
Proof.
  intros z [Hlo Hhi]. unfold Int.wrap, Int.int_min, Int.int_max in *.
  rewrite Z.mod_small; lia.
Qed.

Lemma wrap_range : forall z, Int.in_range (Int.wrap z).
Proof.
  intros z. unfold Int.in_range, Int.wrap, Int.int_min, Int.int_max.
  pose proof (Z.mod_pos_bound (z + 2147483648) 4294967296 ltac:(lia)). lia.
Qed.

Lemma to_json_members : forall t, to_json t = JObject (task_members t).
Proof. intros t. reflexivity. Qed.

Lemma from_json_to_json : forall t, task_ok t -> from_json (to_json t) = Some t.
Proof.
  intros [i d c p] [Hi Hp]. simpl in Hi, Hp.
  rewrite to_json_members. unfold from_json, task_members. simpl.
  rewrite (wrap_in_range i Hi), (wrap_in_range p Hp). reflexivity.
Qed.

Lemma get_int_range : forall j z, get_int j = Some z -> Int.in_range z.
Proof.
  intros j z H. destruct j; simpl in H; try discriminate.
  - destruct b; inversion H; unfold Int.in_range, Int.int_min, Int.int_max; lia.
  - inversion H. apply wrap_range.
Qed.

Lemma from_json_ok : forall j t, from_json j = Some t -> task_ok t.
Proof.
  intros j t H. unfold from_json in H.
  destruct (option_bind (at_key j "id") get_int) as [i|] eqn:Ei; [|discriminate].
  destruct (option_bind (at_key j "description") get_string) as [d|]; [|discriminate].
  destruct (option_bind (at_key j "completed") get_bool) as [c|]; [|discriminate].
  destruct (option_bind (at_key j "priority") get_int) as [p|] eqn:Ep; [|discriminate].
  simpl in H. inversion H; subst t. split; simpl.
  - destruct (at_key j "id"); [|discriminate]. eapply get_int_range; eauto.
  - destruct (at_key j "priority"); [|discriminate]. eapply get_int_range; eauto.
Qed.

Lemma fold_task_json_array : forall ts l,
  fold_left task_json ts (JArray l) = JArray (l ++ map to_json ts).
Proof.
  induction ts as [|t ts IH]; intros l; simpl.
  - now rewrite app_nil_r.
  - rewrite IH, <- app_assoc. reflexivity.
Qed.

(** What [save_tasks] builds: null for no task, the array of the tasks'
    objects otherwise. *)
Lemma tasks_document_shape : forall ts,
  tasks_document ts =
  match ts with
  | [] => JNull
  | _ :: _ => JArray (map to_json ts)
  end.
Proof.
  intros [|t ts]; [reflexivity|].
  unfold tasks_document. simpl. apply fold_task_json_array.
Qed.

Lemma items_tasks_document : forall ts,
  Json.items (tasks_document ts) = map to_json ts.
Proof. intros ts. rewrite tasks_document_shape. now destruct ts. Qed.

Lemma save_tasks_writable : forall m w,
  writable (file w) = true ->
  save_tasks m w =
  (tt, mkWorld (mkFile (Document (tasks_document (tasks m))) true)
               (cin w) (cout w) (cerr w)).
Proof.
  intros m w H. unfold save_tasks, bind, write_file. now rewrite H.
Qed.

Lemma save_tasks_readonly : forall m w,
  writable (file w) = false ->
  save_tasks m w =
  (tt, mkWorld (file w) (cin w) (cout w)
               (cerr w ++ [("Error saving tasks to file." ++ endl)%string])).
Proof.
  intros m w H. unfold save_tasks, bind, write_file. now rewrite H.
Qed.

(** Saving touches neither the standard streams' input side nor [cout]. *)
Lemma save_tasks_cout : forall m w, cout (snd (save_tasks m w)) = cout w.
Proof.
  intros m w. destruct (writable (file w)) eqn:H.
  - now rewrite save_tasks_writable.
  - now rewrite save_tasks_readonly.
Qed.

Lemma load_items_to_json : forall ts acc nid,
  Forall task_ok ts ->
  load_items (map to_json ts) acc nid = Some (acc ++ ts, fold_left bump ts nid).
Proof.
  induction ts as [|t ts IH]; intros acc nid Hok; cbn [map load_items fold_left].
  - now rewrite app_nil_r.
  - inversion Hok as [|? ? Ht Hts]; subst.
    rewrite (from_json_to_json t Ht). cbn [option_bind].
    rewrite (IH _ _ Hts), <- app_assoc. reflexivity.
Qed.

Lemma load_items_extends : forall its acc nid ts nid',
  load_items its acc nid = Some (ts, nid') -> exists new, ts = acc ++ new.
Proof.
  induction its as [|item its IH]; intros acc nid ts nid' H; simpl in H.
  - inversion H. exists []. now rewrite app_nil_r.
  - destruct (from_json item) as [task|]; [|discriminate]. simpl in H.
    apply IH in H as [new ->]. exists (task :: new).
    now rewrite <- app_assoc.
Qed.

(** While no loaded id is [INT_MAX], the counter ends above every id. *)
Lemma load_items_below : forall its acc nid ts nid',
  load_items its acc nid = Some (ts, nid') ->
  Forall (fun t => id t < Int.int_max) ts ->
  Forall (fun t => id t < nid) acc ->
  Forall (fun t => id t < nid') ts /\ nid <= nid'.
Proof.
  induction its as [|item its IH]; intros acc nid ts nid' H Hmax Hacc;
    simpl in H.
  - inversion H; subst. split; [assumption|lia].
  - destruct (from_json item) as [task|] eqn:Ej; [|discriminate]. simpl in H.
    pose proof (load_items_extends _ _ _ _ _ H) as [new ->].
    assert (Htask : id task < Int.int_max).
    { rewrite Forall_forall in Hmax. apply Hmax.
      apply in_or_app. left. apply in_or_app. right. now left. }
    pose proof (from_json_ok _ _ Ej) as [[Hlo _] _].
    assert (Hstep : nid <= (if id task >=? nid then Int.wrap (id task + 1) else nid)
                    /\ id task < (if id task >=? nid then Int.wrap (id task + 1) else nid)).
    { destruct (id task >=? nid) eqn:E.
      - rewrite wrap_in_range by (unfold Int.in_range, Int.int_min, Int.int_max in *; lia).
        lia.
      - lia. }
    destruct Hstep as [Hle Hlt].
    apply IH in H; [| assumption |].
    + destruct H as [Hall Hn]. split; [assumption|lia].
    + apply Forall_app. split.
      * eapply Forall_impl; [|exact Hacc]. simpl. intros a Ha. lia.
      * constructor; [exact Hlt|constructor].
Qed.

Lemma load_items_throws : forall its acc nid,
  Exists (fun item => from_json item = None) its ->
  load_items its acc nid = None.
Proof.
  induction its as [|item its IH]; intros acc nid H; [inversion H|].
  simpl. destruct (from_json item) as [task|] eqn:E; [|reflexivity].
  simpl. apply IH. inversion H; subst; [congruence|assumption].
Qed.

Lemma load_items_nil : forall its acc nid nid',
  load_items its acc nid = Some ([], nid') -> nid' = nid.
Proof.
  intros [|item its] acc nid nid' H; simpl in H; [now inversion H|].
  destruct (from_json item) as [task|]; [|discriminate]. simpl in H.
  apply load_items_extends in H as [new H].
  rewrite <- app_assoc in H. symmetry in H.
  apply app_eq_nil in H as [_ H]. discriminate.
Qed.

Lemma add_task_manager : forall d p m w,
  fst (add_task d p m w) =
  mkManager (tasks m ++ [mkTask (next_id m) d false p]) (Int.wrap (next_id m + 1)).
Proof.
  intros d p m w. unfold add_task, bind.
  destruct (save_tasks _ w) as [[] w1]. reflexivity.
Qed.

Lemma add_all_tasks : forall adds m w,
  Int.int_min <= next_id m ->
  next_id m + Z.of_nat (List.length adds) <= Int.int_max + 1 ->
  tasks (fst (add_all adds m w)) = tasks m ++ numbered (next_id m) adds.
Proof.
  induction adds as [|[d p] adds IH]; intros m w Hlo Hhi.
  - simpl. now rewrite app_nil_r.
  - cbn [add_all numbered]. unfold bind.
    pose proof (add_task_manager d p m w) as Hm.
    destruct (add_task d p m w) as [m' w']. simpl in Hm. subst m'.
    destruct adds as [|a adds'].
    + reflexivity.
    + assert (Hw : Int.wrap (next_id m + 1) = next_id m + 1).
      { apply wrap_in_range. cbn [List.length] in Hhi.
        unfold Int.in_range, Int.int_min, Int.int_max in *. lia. }
      rewrite IH; cbn [tasks next_id].
      * rewrite Hw, <- app_assoc. reflexivity.
      * rewrite Hw. lia.
      * rewrite Hw. cbn [List.length] in *. lia.
Qed.

Lemma add_all_next_id : forall adds m w,
  Int.in_range (next_id m) ->
  next_id m + Z.of_nat (List.length adds) <= Int.int_max + 1 ->
  next_id (fst (add_all adds m w))
  = Int.wrap (next_id m + Z.of_nat (List.length adds)).
Proof.
  induction adds as [|[d p] adds IH]; intros m w Hr Hhi.
  - simpl. rewrite Z.add_0_r. symmetry. now apply wrap_in_range.
  - cbn [add_all]. unfold bind.
    pose proof (add_task_manager d p m w) as Hm.
    destruct (add_task d p m w) as [m' w']. simpl in Hm. subst m'.
    destruct adds as [|a adds'].
    + reflexivity.
    + assert (Hw : Int.wrap (next_id m + 1) = next_id m + 1).
      { apply wrap_in_range. cbn [List.length] in Hhi.
        unfold Int.in_range, Int.int_min, Int.int_max in *. lia. }
      rewrite IH; cbn [tasks next_id]; rewrite Hw.
      * f_equal. cbn [List.length]. lia.
      * cbn [List.length] in Hhi.
        unfold Int.in_range, Int.int_min, Int.int_max in *. lia.
      * cbn [List.length] in *. lia.
Qed.

Lemma numbered_ids : forall adds n,
  map id (numbered n adds) =
  map (fun k => n + Z.of_nat k) (seq 0 (List.length adds)).
Proof.
  induction adds as [|[d p] adds IH]; intros n; [reflexivity|].
  cbn [numbered map List.length seq]. rewrite IH, <- seq_shift, map_map.
  f_equal; [simpl; lia|]. apply map_ext. intros k. lia.
Qed.

Lemma numbered_from_one : forall adds,
  map id (numbered 1 adds) = map Z.of_nat (seq 1 (List.length adds)).
Proof.
  intros adds. rewrite numbered_ids, <- seq_shift, map_map.
  apply map_ext. intros k. lia.
Qed.

(** The state the constructor leaves: the counter is 1 for an empty
    store, and unless a loaded id is [INT_MAX] it is at least 1 and lies
    above every loaded id. *)
Lemma new_manager_counter : forall w,
  let m0 := fst (new_manager w) in
  (tasks m0 = [] -> next_id m0 = 1) /\
  (Forall (fun t => id t < Int.int_max) (tasks m0) ->
   1 <= next_id m0 /\ Forall (fun t => id t < next_id m0) (tasks m0)).
Proof.
  intros w. unfold new_manager, load_tasks, bind, read_file. cbn [fst snd].
  destruct (content (file w)) as [| |j].
  - destruct (save_tasks _ w). simpl. repeat split; auto; lia.
  - simpl. repeat split; auto; lia.
  - cbn [next_id].
    destruct (load_items (Json.items j) [] 1) as [[ts nid]|] eqn:E.
    + simpl. split.
      * intros ->. now apply load_items_nil in E.
      * intros Hmax.
        destruct (load_items_below _ [] 1 ts nid E Hmax ltac:(constructor)).
        split; assumption.
    + simpl. repeat split; auto; lia.
Qed.

(* ------------------------------------------------------------------ *)
(** ** Persistence: what [save_tasks] writes and what [load_tasks] reads *)

(** For a store that holds at least one task and a file that can be
    opened, [save_tasks] writes the array of the tasks' objects, in the
    order of the store, and each object has the four members [id],
    [description], [completed], [priority] and no other. *)
Lemma save_tasks_array_of_objects : forall m w,
  writable (file w) = true ->
  tasks m <> [] ->
  content (file (snd (save_tasks m w))) = Document (JArray (map to_json (tasks m)))
  /\ forall t, In t (tasks m) ->
       Json.keys (to_json t) = ["completed"; "description"; "id"; "priority"]
       /\ at_key (to_json t) "id" = Some (JNumber (id t))
       /\ at_key (to_json t) "description" = Some (JString (description t))
       /\ at_key (to_json t) "completed" = Some (JBool (completed t))
       /\ at_key (to_json t) "priority" = Some (JNumber (priority t)).
Proof.
  intros m w Hw Hne. rewrite save_tasks_writable by assumption.
  rewrite tasks_document_shape. destruct (tasks m) as [|t0 ts]; [congruence|].
  split; [reflexivity|]. intros t _. rewrite to_json_members.
  repeat split.
Qed.

(** When the file cannot be opened for writing, [save_tasks] reports on
    the error stream and leaves the file as it was. *)
Lemma save_failure_leaves_file : forall m w,
  writable (file w) = false ->
  file (snd (save_tasks m w)) = file w
  /\ cerr (snd (save_tasks m w))
     = cerr w ++ [("Error saving tasks to file." ++ endl)%string].
Proof. intros m w H. rewrite save_tasks_readonly by assumption. now split. Qed.

(** C4 (the code departs from the claim).  On the first start, when no
    backing file exists, the constructor persists the empty store, and
    what it writes is the document [null], which is not an array: [json j;]
    is null and no [push_back] turns it into an array. *)
Theorem first_startup_writes_null :
  let w := snd (new_manager (start (mkFile Absent true) EmptyString)) in
  content (file w) = Document JNull
  /\ Json.is_array JNull = false
  /\ tasks_document [] = JNull.
Proof. repeat split. Qed.

(** C9.  When the backing file holds text the library rejects, or a
    document one of whose elements [Task::from_json] rejects, [load_tasks]
    returns normally with an empty collection and the counter at 1 --
    whatever records preceded the rejected one -- reports on the error
    stream, and leaves the file as it was. *)
Theorem load_unparseable_resets : forall m w,
  (content (file w) = Malformed \/
   exists j, content (file w) = Document j /\
             Exists (fun item => from_json item = None) (Json.items j)) ->
  load_tasks m w =
  (mkManager [] 1,
   mkWorld (file w) (cin w) (cout w)
     (cerr w ++ [("Error loading tasks from file. Starting with empty task list."
                    ++ endl)%string])).
Proof.
  intros m w H. unfold load_tasks, bind, read_file.
  destruct H as [-> | [j [-> Hbad]]].
  - reflexivity.
  - now rewrite (load_items_throws _ [] (next_id m) Hbad).
Qed.

Lemma load_unparseable_resets_witness :
  let good_record := to_json (mkTask 7 "kept?" false 1) in
  let w := start (mkFile (Document (JArray [good_record; JNumber 5])) true)
                 EmptyString in
  fst (new_manager w) = mkManager [] 1 /\ file (snd (new_manager w)) = file w.
Proof.
  intros good_record w.
  assert (H : content (file w) = Malformed \/
              exists j, content (file w) = Document j /\
                        Exists (fun item => from_json item = None) (Json.items j)).
  { right. exists (JArray [good_record; JNumber 5]). split; [reflexivity|].
    apply Exists_cons_tl, Exists_cons_hd. reflexivity. }
  unfold new_manager.
  rewrite (load_unparseable_resets (mkManager [] 1) w H).
  split; reflexivity.
Defined.




(* ------------------------------------------------------------------ *)
(** ** Id assignment *)

(** On a fresh store, the add that follows [n + 1] adds, where [n + 1]
    is [INT_MAX], receives the id [INT_MIN]. *)
Lemma fresh_store_counter_wraps : forall n : nat,
  Z.of_nat n = 2147483646 ->
  let adds := ("x", 2) :: repeat ("x", 2) n in
  let fresh := new_manager (start (mkFile Absent true) EmptyString) in
  let after := add_all adds (fst fresh) (snd fresh) in
  let m := fst (add_task "y" 2 (fst after) (snd after)) in
  exists between,
    tasks m = mkTask 1 "x" false 2 :: between ++ [mkTask (-2147483648) "y" false 2].
Proof.
  intros n Hn adds fresh after m.
  assert (Hlen : Z.of_nat (List.length adds) = 2147483647).
  { subst adds. cbn [List.length]. rewrite repeat_length, Nat2Z.inj_succ, Hn.
    reflexivity. }
  assert (Hs : fresh = (mkManager [] 1, snd fresh)) by reflexivity.
  subst m. rewrite add_task_manager.
  subst after. rewrite Hs. cbn [fst snd tasks].
  rewrite add_all_next_id, add_all_tasks; cbn [next_id tasks];
    try rewrite Hlen;
    try (unfold Int.in_range, Int.int_min, Int.int_max; lia).
  change (Int.wrap (1 + 2147483647)) with (-2147483648).
  subst adds. cbn [numbered app]. eexists. reflexivity.
Qed.

(** C5, as stated, fails in both of its parts.  After a load that meets
    the id [INT_MAX] the next task receives [INT_MIN], below the id
    already in the store; and on a fresh store the add that follows
    [INT_MAX] adds receives [INT_MIN] too, below the id 1 of the first
    task. *)
Lemma add_after_load_of_max_id :
  (let old := mkTask 2147483647 "last" false 2 in
   let w := start (mkFile (Document (JArray [to_json old])) true) EmptyString in
   let (m0, w0) := new_manager w in
   let m := fst (add_task "next" 1 m0 w0) in
   tasks m = [old; mkTask (-2147483648) "next" false 1] /\
   ~ (id old < -2147483648))
  /\
  (let adds := ("x", 2) :: repeat ("x", 2) (Z.to_nat 2147483646) in
   let fresh := new_manager (start (mkFile Absent true) EmptyString) in
   let after := add_all adds (fst fresh) (snd fresh) in
   let m := fst (add_task "y" 2 (fst after) (snd after)) in
   exists between,
     tasks m = mkTask 1 "x" false 2 :: between ++ [mkTask (-2147483648) "y" false 2]).
Proof.
  split.
  - cbv zeta. split; [reflexivity|]. simpl. lia.
  - exact (fresh_store_counter_wraps (Z.to_nat 2147483646)
             (Z2Nat.id 2147483646 ltac:(lia))).
Qed.

(** C5 (amended).  After construction, a sequence of [add] operations
    that does not take the counter past [INT_MAX] keeps the loaded tasks
    and appends one task per operation with the consecutive ids
    [next_id], [next_id + 1], ..., whatever the priority arguments; when
    the constructed store is empty these are 1, 2, 3, ...; and when no
    loaded id is [INT_MAX], every loaded id is below [next_id], hence
    below every id assigned later. *)
Theorem add_assigns_increasing_ids : forall (w : World) (adds : list (string * Z)),
  let m0 := fst (new_manager w) in
  let m := fst (add_all adds m0 (snd (new_manager w))) in
  Forall (fun t => id t < Int.int_max) (tasks m0) ->
  next_id m0 + Z.of_nat (List.length adds) <= Int.int_max + 1 ->
  tasks m = tasks m0 ++ numbered (next_id m0) adds
  /\ map id (numbered (next_id m0) adds)
     = map (fun k => next_id m0 + Z.of_nat k) (seq 0 (List.length adds))
  /\ Forall (fun t => id t < next_id m0) (tasks m0)
  /\ (tasks m0 = [] -> map id (tasks m) = map Z.of_nat (seq 1 (List.length adds))).
Proof.
  intros w adds m0 m Hmax Hfit.
  destruct (new_manager_counter w) as [Hempty Hbelow]. fold m0 in Hempty, Hbelow.
  destruct (Hbelow Hmax) as [Hone Hall].
  assert (Ht : tasks m = tasks m0 ++ numbered (next_id m0) adds).
  { subst m. apply add_all_tasks; [unfold Int.int_min; lia|assumption]. }
  repeat split.
  - exact Ht.
  - apply numbered_ids.
  - exact Hall.
  - intros Hnil. rewrite Ht, Hnil, (Hempty Hnil). apply numbered_from_one.
Qed.

Lemma add_assigns_increasing_ids_witness :
  let w := start (mkFile (Document (JArray [to_json (mkTask 5 "old" true 3)])) true)
                 EmptyString in
  let adds := [("a", 3); ("b", 1); ("c", 2)] in
  let m := fst (add_all adds (fst (new_manager w)) (snd (new_manager w))) in
  map id (tasks m) = [5; 6; 7; 8].
Proof.
  intros w adds m.
  assert (Hmax : Forall (fun t => id t < Int.int_max) (tasks (fst (new_manager w)))).
  { repeat constructor. }
  assert (Hfit : next_id (fst (new_manager w)) + Z.of_nat (List.length adds)
                 <= Int.int_max + 1).
  { vm_compute. discriminate. }
  destruct (add_assigns_increasing_ids w adds Hmax Hfit) as [Ht _].
  fold m in Ht. rewrite Ht. reflexivity.
Defined.

(* ------------------------------------------------------------------ *)
(** ** Deleting *)

Lemma remove_if_filter : forall p l,
  remove_if p l = filter (fun t => negb (p t)) l.
Proof.
  induction l as [|t l IH]; [reflexivity|].
  simpl. rewrite IH. now destruct (p t).
Qed.

Lemma remove_if_length : forall p l,
  (List.length (remove_if p l) <= List.length l)%nat.
Proof.
  induction l as [|t l IH]; simpl; [lia|]. destruct (p t); simpl; lia.
Qed.

(** The iterator returned by [std::remove_if] is the end iterator exactly
    when no element satisfies the predicate. *)
Lemma remove_if_end : forall p l,
  Nat.eqb (List.length (remove_if p l)) (List.length l) = true <->
  Forall (fun t => p t = false) l.
Proof.
  induction l as [|t l IH]; simpl.
  - split; [constructor|reflexivity].
  - destruct (p t) eqn:E; simpl.
    + split.
      * intros H. apply Nat.eqb_eq in H.
        pose proof (remove_if_length p l). lia.
      * intros H. inversion H; congruence.
    + rewrite IH. split.
      * intros H. now constructor.
      * intros H. now inversion H.
Qed.

Lemma remove_if_none : forall p l,
  Forall (fun t => p t = false) l -> remove_if p l = l.
Proof.
  induction l as [|t l IH]; intros H; [reflexivity|].
  inversion H as [|? ? Ht Hl]; subst. simpl. rewrite Ht. f_equal. auto.
Qed.

Lemma remove_if_idempotent : forall p l,
  Forall (fun t => p t = false) (remove_if p l).
Proof.
  induction l as [|t l IH]; simpl; [constructor|].
  destruct (p t) eqn:E; [assumption|]. now constructor.
Qed.

Lemma delete_task_found : forall i m w,
  Exists (fun t => id t = i) (tasks m) ->
  delete_task i m w =
  let m' := mkManager (remove_if (fun t => id t =? i) (tasks m)) (next_id m) in
  let w' := snd (save_tasks m' w) in
  (m', mkWorld (file w') (cin w') (cout w ++ [("Task deleted successfully!!" ++ endl)%string])
               (cerr w')).
Proof.
  intros i m w H. unfold delete_task.
  destruct (Nat.eqb _ _) eqn:E.
  - exfalso. apply remove_if_end in E. rewrite Forall_forall in E.
    apply Exists_exists in H as [t [Hin Hid]].
    specialize (E t Hin). simpl in E. apply Z.eqb_neq in E. contradiction.
  - cbn [negb]. unfold bind. cbv zeta.
    pose proof (save_tasks_cout (mkManager (remove_if (fun t => id t =? i) (tasks m)) (next_id m)) w) as Hc.
    destruct (save_tasks _ w) as [[] w1]. simpl in *. now rewrite Hc.
Qed.

Lemma delete_task_missing : forall i m w,
  Forall (fun t => id t <> i) (tasks m) ->
  delete_task i m w =
  (m, mkWorld (file w) (cin w)
        (cout w ++ [("Task with ID " ++ show_int i ++ " not found." ++ endl)%string])
        (cerr w)).
Proof.
  intros i m w H. unfold delete_task.
  assert (E : Nat.eqb (List.length (remove_if (fun t => id t =? i) (tasks m)))
                      (List.length (tasks m)) = true).
  { apply remove_if_end. eapply Forall_impl; [|exact H].
    simpl. intros t Ht. now apply Z.eqb_neq. }
  rewrite E. reflexivity.
Qed.

(** With distinct ids, removing the tasks of id [i] removes one task. *)
Lemma remove_if_unique : forall i l,
  NoDup (map id l) ->
  Exists (fun t => id t = i) l ->
  exists before t after,
    l = before ++ t :: after /\ id t = i /\
    remove_if (fun t => id t =? i) l = before ++ after.
Proof.
  induction l as [|u l IH]; intros Hnd Hex; [inversion Hex|].
  simpl in Hnd. inversion Hnd as [|? ? Hnotin Hnd']; subst.
  destruct (Z.eq_dec (id u) i) as [Hu|Hu].
  - exists [], u, l. repeat split; [assumption|].
    simpl. rewrite (proj2 (Z.eqb_eq _ _) Hu).
    apply remove_if_none. rewrite Forall_forall. intros t Ht.
    apply Z.eqb_neq. intros Heq. apply Hnotin.
    rewrite Hu, <- Heq. now apply in_map.
  - inversion Hex as [? ? Hhd|? ? Htl]; subst; [contradiction|].
    destruct (IH Hnd' Htl) as [before [t [after [Hl [Hid Hrm]]]]].
    exists (u :: before), t, after. repeat split.
    + simpl. now rewrite Hl.
    + assumption.
    + simpl. rewrite (proj2 (Z.eqb_neq _ _) Hu), Hrm. reflexivity.
Qed.

(** C8, as stated, fails on a store with a repeated id, which
    [load_tasks] accepts from the file: [delete_task] removes every task
    of that id, not one. *)
Lemma delete_removes_every_duplicate :
  let doc := JArray [to_json (mkTask 1 "a" false 2);
                     to_json (mkTask 2 "b" false 2);
                     to_json (mkTask 1 "c" true 3)] in
  let (m0, w0) := new_manager (start (mkFile (Document doc) true) EmptyString) in
  let m1 := fst (delete_task 1 m0 w0) in
  List.length (tasks m0) = 3%nat /\ tasks m1 = [mkTask 2 "b" false 2].
Proof. cbv zeta. split; reflexivity. Qed.

(** C8 (amended).  On a store that contains a task of id [i],
    [delete_task i] keeps exactly the tasks whose id differs from [i],
    unchanged and in their order, and reports success; when the ids of
    the store are distinct this removes exactly one task; a second
    [delete_task i] reports not-found and changes neither the store nor
    the file. *)
Theorem delete_removes_matching : forall i m w,
  Exists (fun t => id t = i) (tasks m) ->
  let m1 := fst (delete_task i m w) in
  let w1 := snd (delete_task i m w) in
  tasks m1 = filter (fun t => negb (id t =? i)) (tasks m)
  /\ next_id m1 = next_id m
  /\ cout w1 = cout w ++ [("Task deleted successfully!!" ++ endl)%string]
  /\ (NoDup (map id (tasks m)) ->
      exists before t after,
        tasks m = before ++ t :: after /\ id t = i /\ tasks m1 = before ++ after)
  /\ delete_task i m1 w1 =
     (m1, mkWorld (file w1) (cin w1)
            (cout w1 ++ [("Task with ID " ++ show_int i ++ " not found." ++ endl)%string])
            (cerr w1)).
Proof.
  intros i m w Hex m1 w1. subst m1 w1.
  rewrite (delete_task_found i m w Hex). cbv zeta. cbn [fst snd tasks next_id cout].
  repeat split.
  - apply remove_if_filter.
  - intros Hnd. now apply remove_if_unique.
  - apply delete_task_missing. cbn [tasks].
    pose proof (remove_if_idempotent (fun t => id t =? i) (tasks m)) as H.
    eapply Forall_impl; [|exact H]. simpl. intros t Ht. now apply Z.eqb_neq.
Qed.

Lemma delete_removes_matching_witness :
  let m := mkManager [mkTask 1 "a" false 2; mkTask 2 "b" true 1; mkTask 3 "c" false 3] 4 in
  let w := start (mkFile Absent true) EmptyString in
  tasks (fst (delete_task 2 m w)) = [mkTask 1 "a" false 2; mkTask 3 "c" false 3].
Proof.
  intros m w.
  assert (Hex : Exists (fun t => id t = 2) (tasks m)).
  { apply Exists_cons_tl, Exists_cons_hd. reflexivity. }
  destruct (delete_removes_matching 2 m w Hex) as [Ht _].
  rewrite Ht. reflexivity.
Defined.

(* ------------------------------------------------------------------ *)
(** ** Listing *)

Lemma task_lt_true : forall a b, task_lt a b = true -> by_priority_then_id a b.
Proof.
  intros a b. unfold task_lt, by_priority_then_id.
  destruct (priority a =? priority b) eqn:E; simpl; intros H.
  - apply Z.eqb_eq in E. apply Z.ltb_lt in H. right. lia.
  - apply Z.ltb_lt in H. now left.
Qed.

Lemma task_lt_false : forall a b, task_lt a b = false -> by_priority_then_id b a.
Proof.
  intros a b. unfold task_lt, by_priority_then_id.
  destruct (priority a =? priority b) eqn:E; simpl; intros H.
  - apply Z.eqb_eq in E. apply Z.ltb_ge in H. right. lia.
  - apply Z.eqb_neq in E. apply Z.ltb_ge in H. left. lia.
Qed.

Lemma by_priority_then_id_trans : forall a b c,
  by_priority_then_id a b -> by_priority_then_id b c -> by_priority_then_id a c.
Proof. unfold by_priority_then_id. intros a b c H1 H2. lia. Qed.

Lemma by_priority_then_id_antisym : forall a b,
  by_priority_then_id a b -> by_priority_then_id b a ->
  priority a = priority b /\ id a = id b.
Proof. unfold by_priority_then_id. intros a b H1 H2. lia. Qed.

Lemma task_lt_strict_weak : strict_weak_order task_lt.
Proof.
  assert (H : forall a b, task_lt a b = true <->
                priority a < priority b \/ (priority a = priority b /\ id a < id b)).
  { intros a b. unfold task_lt.
    destruct (priority a =? priority b) eqn:E; simpl.
    - apply Z.eqb_eq in E. rewrite Z.ltb_lt. lia.
    - apply Z.eqb_neq in E. rewrite Z.ltb_lt. lia. }
  split.
  - intros a b Hab. apply H in Hab.
    destruct (task_lt b a) eqn:E; [|reflexivity]. apply H in E. lia.
  - intros a b c Hac. apply H in Hac.
    destruct (task_lt a b) eqn:E1; [now left|]. right. apply H.
    assert (N : ~ (priority a < priority b
                   \/ (priority a = priority b /\ id a < id b))).
    { intros X. apply H in X. congruence. }
    lia.
Qed.

(** Whatever the library's algorithm, the sorted vector holds the tasks
    of the store and is arranged by priority, then id. *)
Lemma sort_tasks_perm : forall l, Permutation l (sort_tasks l).
Proof. intros l. apply std_sort_permutation, task_lt_strict_weak. Qed.

Lemma sort_tasks_sorted : forall l, StronglySorted by_priority_then_id (sort_tasks l).
Proof.
  intros l. unfold sort_tasks.
  pose proof (std_sort_sorted Task task_lt l task_lt_strict_weak) as H.
  induction H as [|a s Hs IH Ha]; constructor; [assumption|].
  eapply Forall_impl; [|exact Ha]. simpl. intros b Hb. now apply task_lt_false.
Qed.

Section SortedPermutation.

Variable A : Type.
Variable R : A -> A -> Prop.

(** Two sorted arrangements of the same elements coincide when the
    order cannot tie two different elements. *)
Lemma sorted_perm_unique : forall l1 l2 : list A,
  StronglySorted R l1 -> StronglySorted R l2 ->
  Permutation l1 l2 ->
  (forall a b, In a l1 -> In b l1 -> R a b -> R b a -> a = b) ->
  l1 = l2.
Proof.
  induction l1 as [|a1 l1 IH]; intros l2 H1 H2 Hp Hanti.
  - apply Permutation_nil in Hp. now subst.
  - destruct l2 as [|a2 l2].
    { apply Permutation_sym, Permutation_nil in Hp. discriminate. }
    inversion H1 as [|? ? Hs1 Hf1]; subst.
    inversion H2 as [|? ? Hs2 Hf2]; subst.
    assert (Heq : a1 = a2).
    { assert (Hin2 : In a2 (a1 :: l1)).
      { apply (Permutation_in _ (Permutation_sym Hp)). now left. }
      assert (Hin1 : In a1 (a2 :: l2)).
      { apply (Permutation_in _ Hp). now left. }
      destruct Hin2 as [->|Hin2]; [reflexivity|].
      destruct Hin1 as [->|Hin1]; [reflexivity|].
      rewrite Forall_forall in Hf1, Hf2.
      apply Hanti; [now left|now right|auto|auto]. }
    subst a2. f_equal.
    apply IH; try assumption.
    + eapply Permutation_cons_inv; eauto.
    + intros a b Ha Hb. apply Hanti; now right.
Qed.

End SortedPermutation.

Lemma distinct_ids_injective : forall (l : list Task) a b,
  NoDup (map id l) -> In a l -> In b l -> id a = id b -> a = b.
Proof.
  induction l as [|t l IH]; intros a b Hnd Ha Hb Hid; [inversion Ha|].
  simpl in Hnd. inversion Hnd as [|? ? Hnotin Hnd']; subst.
  destruct Ha as [->|Ha], Hb as [->|Hb]; auto.
  - exfalso. apply Hnotin. rewrite Hid. now apply in_map.
  - exfalso. apply Hnotin. rewrite <- Hid. now apply in_map.
Qed.

(** With distinct ids there is only one result [std::sort] may produce. *)
Lemma sort_tasks_unique : forall l l',
  NoDup (map id l) ->
  Permutation l l' ->
  StronglySorted by_priority_then_id l' ->
  l' = sort_tasks l.
Proof.
  intros l l' Hnd Hp Hs. symmetry.
  apply (sorted_perm_unique Task by_priority_then_id).
  - apply sort_tasks_sorted.
  - assumption.
  - eapply perm_trans; [apply Permutation_sym, sort_tasks_perm|assumption].
  - intros a b Ha Hb Hab Hba.
    destruct (by_priority_then_id_antisym a b Hab Hba) as [_ Hid].
    apply (distinct_ids_injective l); try assumption;
      eapply Permutation_in; try apply Permutation_sym, sort_tasks_perm; assumption.
Qed.

Lemma shown_tasks_all : forall l, shown_tasks true l = l.
Proof.
  intros l. unfold shown_tasks.
  rewrite (filter_ext _ (fun _ => true)) by reflexivity.
  induction l as [|t l IH]; simpl; congruence.
Qed.

Lemma shown_tasks_pending : forall l,
  shown_tasks false l = filter (fun t => negb (completed t)) l.
Proof. intros l. unfold shown_tasks. apply filter_ext. intros t. reflexivity. Qed.

Lemma print_all_cout : forall rows w,
  print_all rows w = (tt, mkWorld (file w) (cin w) (cout w ++ rows) (cerr w)).
Proof.
  induction rows as [|r rows IH]; intros w; simpl.
  - rewrite app_nil_r. now destruct w.
  - unfold bind, print at 1. rewrite IH. simpl. now rewrite <- app_assoc.
Qed.

(** Everything [list_tasks] does: it writes to [cout], and nothing else. *)
Lemma list_tasks_output : forall show_completed m w,
  list_tasks show_completed m w =
  (tt, mkWorld (file w) (cin w)
         (cout w ++
          match tasks m with
          | [] => [("No tasks found." ++ endl)%string]
          | _ :: _ =>
              [(endl ++ "TASK LIST" ++ endl)%string; ("---------" ++ endl)%string]
              ++ map task_row (shown_tasks show_completed (sort_tasks (tasks m)))
              ++ [endl]
          end)
         (cerr w)).
Proof.
  intros show_completed m w. unfold list_tasks.
  destruct (tasks m) as [|t ts]; [reflexivity|].
  unfold bind, print at 1 2. cbn [fst snd file cin cout cerr].
  rewrite print_all_cout. unfold print. cbn [file cin cout cerr].
  repeat rewrite <- app_assoc. reflexivity.
Qed.

Lemma dispatch_list : forall args m w,
  dispatch ("list" :: args) m w =
  (Next, m,
   snd (list_tasks (negb (match args with
                          | a :: _ => String.eqb a "pending"
                          | [] => false
                          end)) m w)).
Proof.
  intros args m w. unfold dispatch.
  change (String.eqb "list" "exit") with false.
  change (String.eqb "list" "help") with false.
  change (String.eqb "list" "add") with false.
  change (String.eqb "list" "list") with true.
  cbn [andb]. unfold bind.
  destruct args as [|a args]; cbn [List.length Nat.ltb Nat.leb nth andb];
    destruct (list_tasks _ m w) as [[] w']; reflexivity.
Qed.

(** C7.  The rows [list_tasks] prints with [show_completed = true] are
    those of the whole collection arranged by priority ascending, then id
    ascending; with [show_completed = false] they are the same sequence
    without the tasks whose [completed] flag is set; the rows are all the
    function prints between its heading and the closing blank line (an
    empty store has no row and gets the "No tasks found." line); and the
    [list] command leaves the manager -- hence the stored order -- and the
    file as they were. *)
Theorem list_tasks_sorted_filtered : forall (m : TaskManager) (w : World),
  let all := shown_tasks true (sort_tasks (tasks m)) in
  let pending := shown_tasks false (sort_tasks (tasks m)) in
  Permutation (tasks m) all
  /\ StronglySorted by_priority_then_id all
  /\ pending = filter (fun t => negb (completed t)) all
  /\ (forall show_completed,
        list_tasks show_completed m w =
        (tt, mkWorld (file w) (cin w)
               (cout w ++
                match tasks m with
                | [] => [("No tasks found." ++ endl)%string]
                | _ :: _ =>
                    [(endl ++ "TASK LIST" ++ endl)%string; ("---------" ++ endl)%string]
                    ++ map task_row (if show_completed then all else pending)
                    ++ [endl]
                end)
               (cerr w)))
  /\ (forall args, exists show_completed,
        dispatch ("list" :: args) m w
        = (Next, m, snd (list_tasks show_completed m w))
        /\ file (snd (list_tasks show_completed m w)) = file w).
Proof.
  intros m w all pending. subst all pending.
  rewrite shown_tasks_all, shown_tasks_pending.
  split; [apply sort_tasks_perm|].
  split; [apply sort_tasks_sorted|].
  split; [reflexivity|].
  split.
  - intros show_completed. rewrite list_tasks_output.
    destruct show_completed;
      [rewrite shown_tasks_all | rewrite shown_tasks_pending]; reflexivity.
  - intros args. eexists. split; [apply dispatch_list|].
    now rewrite list_tasks_output.
Qed.

Lemma all_completed_none_pending : forall l,
  Forall (fun t => completed t = true) l ->
  shown_tasks false (sort_tasks l) = [].
Proof.
  intros l H. rewrite shown_tasks_pending.
  assert (Hs : Forall (fun t => completed t = true) (sort_tasks l)).
  { rewrite Forall_forall in *. intros t Ht. apply H.
    eapply Permutation_in; [apply Permutation_sym, sort_tasks_perm|exact Ht]. }
  induction (sort_tasks l) as [|t s IH]; [reflexivity|].
  inversion Hs as [|? ? Ht Hs']; subst. simpl. rewrite Ht. simpl. auto.
Qed.

(** C3 (the code departs from the claim).  On a store that is not empty
    and whose tasks are all completed, [list_tasks] with
    [show_completed = false] prints the heading of the task list and a
    blank line, and no "No tasks found." line: that line is printed only
    when the store itself is empty. *)
Theorem list_pending_all_done_prints_heading : forall m w,
  tasks m <> [] ->
  Forall (fun t => completed t = true) (tasks m) ->
  cout (snd (list_tasks false m w)) =
  cout w ++ [(endl ++ "TASK LIST" ++ endl)%string; ("---------" ++ endl)%string; endl]
  /\ ~ In ("No tasks found." ++ endl)%string
          [(endl ++ "TASK LIST" ++ endl)%string; ("---------" ++ endl)%string; endl].
Proof.
  intros m w Hne Hall. split.
  - rewrite list_tasks_output. cbn [snd cout].
    rewrite (all_completed_none_pending _ Hall).
    destruct (tasks m); [congruence|reflexivity].
  - simpl. intros [H|[H|[H|[]]]]; discriminate.
Qed.

(* ------------------------------------------------------------------ *)
(** ** The [done] and [delete] commands *)

Lemma dispatch_done : forall t m w,
  dispatch ["done"; t] m w =
  match stoi t with
  | Some i => let (m', w') := mark_done i m w in (Next, m', w')
  | None =>
      (Next, m, mkWorld (file w) (cin w)
                  (cout w ++ [("Invalid task ID." ++ endl)%string]) (cerr w))
  end.
Proof.
  intros t m w. unfold dispatch.
  change (String.eqb "done" "exit") with false.
  change (String.eqb "done" "help") with false.
  change (String.eqb "done" "add") with false.
  change (String.eqb "done" "list") with false.
  change (String.eqb "done" "done") with true.
  cbn [andb List.length Nat.eqb nth].
  destruct (stoi t) as [i|]; [|reflexivity].
  unfold bind. destruct (mark_done i m w). reflexivity.
Qed.

Lemma dispatch_delete : forall t m w,
  dispatch ["delete"; t] m w =
  match stoi t with
  | Some i => let (m', w') := delete_task i m w in (Next, m', w')
  | None =>
      (Next, m, mkWorld (file w) (cin w)
                  (cout w ++ [("Invalid task ID." ++ endl)%string]) (cerr w))
  end.
Proof.
  intros t m w. unfold dispatch.
  change (String.eqb "delete" "exit") with false.
  change (String.eqb "delete" "help") with false.
  change (String.eqb "delete" "add") with false.
  change (String.eqb "delete" "list") with false.
  change (String.eqb "delete" "done") with false.
  change (String.eqb "delete" "delete") with true.
  cbn [andb List.length Nat.eqb nth].
  destruct (stoi t) as [i|]; [|reflexivity].
  unfold bind. destruct (delete_task i m w). reflexivity.
Qed.

Lemma leading_digits_app : forall s acc c rest,
  isdigit c = false ->
  leading_digits (s ++ String c rest) acc = leading_digits s acc.
Proof.
  induction s as [|a s IH]; intros acc c rest Hc; simpl.
  - now rewrite Hc.
  - destruct (isdigit a); [now apply IH|reflexivity].
Qed.

Lemma starts_with_digit_app : forall s u,
  starts_with_digit s = true -> starts_with_digit (s ++ u) = true.
Proof. intros [|a s] u H; [discriminate|exact H]. Qed.

(** Whatever [std::stoi] accepts, it accepts with the same value when
    text that does not start with a digit is appended. *)
Lemma stoi_ignores_trailing_text : forall t i c rest,
  stoi t = Some i ->
  isdigit c = false ->
  stoi (t ++ String c rest) = Some i.
Proof.
  induction t as [|a t IH]; intros i c rest Hs Hc; [discriminate|].
  unfold stoi in *. cbn [append skip_space] in *.
  destruct (isspace a) eqn:Ea.
  - now apply IH.
  - destruct (Ascii.eqb a "-"); [|destruct (Ascii.eqb a "+")];
      match type of Hs with
      | (if starts_with_digit ?s then _ else _) = _ =>
          destruct (starts_with_digit s) eqn:Ed; [|discriminate]
      end.
    + rewrite (starts_with_digit_app _ _ Ed), leading_digits_app by assumption.
      exact Hs.
    + rewrite (starts_with_digit_app _ _ Ed), leading_digits_app by assumption.
      exact Hs.
    + change (String a (t ++ String c rest))
        with (String a t ++ String c rest)%string.
      rewrite (starts_with_digit_app _ _ Ed), leading_digits_app by assumption.
      exact Hs.
Qed.

(** The part of the id contract the code keeps: when [std::stoi] throws
    on the token, the command prints "Invalid task ID." and touches
    neither the manager nor the file. *)
Lemma invalid_id_no_operation : forall line command t m w,
  split_command line = [command; t] ->
  command = "done" \/ command = "delete" ->
  stoi t = None ->
  dispatch (split_command line) m w =
  (Next, m, mkWorld (file w) (cin w)
              (cout w ++ [("Invalid task ID." ++ endl)%string]) (cerr w)).
Proof.
  intros line command t m w -> [-> | ->] Hs.
  - now rewrite dispatch_done, Hs.
  - now rewrite dispatch_delete, Hs.
Qed.

(** C1 (the code departs from the claim).  [std::stoi] converts the
    leading integer of the token and ignores what follows it, so the token
    [1abc], which is no integer literal, is taken as the id 1: [done 1abc]
    marks task 1 as completed and [delete 1abc] deletes it, and neither
    prints "Invalid task ID.". *)
Theorem id_with_trailing_text_is_accepted :
  let m := mkManager [mkTask 1 "Buy milk" false 1; mkTask 2 "Clean" false 2] 3 in
  let w := start (mkFile (Document (tasks_document (tasks m))) true) EmptyString in
  stoi "1abc" = Some 1
  /\ split_command "done 1abc" = ["done"; "1abc"]
  /\ dispatch (split_command "done 1abc") m w =
     (let m' := mkManager [mkTask 1 "Buy milk" true 1; mkTask 2 "Clean" false 2] 3 in
      (Next, m',
       mkWorld (mkFile (Document (tasks_document (tasks m'))) true) (cin w)
               [("Task marked as completed!" ++ endl)%string] []))
  /\ dispatch (split_command "delete 1abc") m w =
     (let m' := mkManager [mkTask 2 "Clean" false 2] 3 in
      (Next, m',
       mkWorld (mkFile (Document (tasks_document (tasks m'))) true) (cin w)
               [("Task deleted successfully!!" ++ endl)%string] [])).
Proof. cbv zeta. repeat split. Qed.

(* ------------------------------------------------------------------ *)
(** ** The [add] command *)

Lemma dispatch_add : forall d rest m w,
  dispatch ("add" :: d :: rest) m w =
  let (m', w') :=
    add_task (fst (add_arguments rest d 2)) (snd (add_arguments rest d 2)) m w in
  (Next, m', w').
Proof.
  intros d rest m w. unfold dispatch.
  change (String.eqb "add" "exit") with false.
  change (String.eqb "add" "help") with false.
  change (String.eqb "add" "add") with true.
  cbn [andb List.length Nat.leb nth skipn].
  destruct (add_arguments rest d 2) as [desc prio]. cbn [fst snd].
  unfold bind. destruct (add_task desc prio m w). reflexivity.
Qed.

(** Induction over the token list two tokens at a time, as the loop of
    the [add] command consumes them. *)
Lemma pair_induction : forall (P : list string -> Prop),
  P [] ->
  (forall t, P [t]) ->
  (forall t v rest, P rest -> P (v :: rest) -> P (t :: v :: rest)) ->
  forall rest, P rest.
Proof.
  intros P H0 H1 H2 rest.
  assert (H : P rest /\ forall t, P (t :: rest)).
  { induction rest as [|v rest [IH1 IH2]]; split; auto. }
  exact (proj1 H).
Qed.

Lemma add_arguments_trailing_flag : forall rest d p,
  flag_pending rest = false ->
  add_arguments (rest ++ ["-p"]) d p =
  ((fst (add_arguments rest d p) ++ " -p")%string, snd (add_arguments rest d p)).
Proof.
  intros rest. induction rest as [|t|t v rest IH IHv] using pair_induction;
    intros d p Hf.
  - reflexivity.
  - simpl in Hf. simpl. destruct (String.eqb t "-p"); [discriminate|reflexivity].
  - cbn [flag_pending] in Hf. cbn [app add_arguments].
    destruct (String.eqb t "-p").
    + apply IH, Hf.
    + apply (IHv (d ++ " " ++ t)%string p Hf).
Qed.

Lemma add_arguments_flag_consumed : forall rest d p,
  flag_pending rest = true ->
  exists desc,
    add_arguments rest d p = ((desc ++ " -p")%string, snd (add_arguments rest d p))
    /\ add_arguments (rest ++ ["-p"]) d p = (desc, 2).
Proof.
  intros rest. induction rest as [|t|t v rest IH IHv] using pair_induction;
    intros d p Hf.
  - discriminate.
  - simpl in Hf. simpl. destruct (String.eqb t "-p") eqn:E; [|discriminate].
    apply String.eqb_eq in E. subst t. exists d. split; reflexivity.
  - cbn [flag_pending] in Hf. cbn [app add_arguments].
    destruct (String.eqb t "-p").
    + apply IH, Hf.
    + apply (IHv (d ++ " " ++ t)%string p Hf).
Qed.

Lemma add_arguments_no_flag : forall rest d p,
  ~ In "-p" rest -> add_arguments rest d p = (space_joined d rest, p).
Proof.
  induction rest as [|t rest IH]; intros d p Hn; [reflexivity|].
  cbn [add_arguments]. destruct (String.eqb t "-p") eqn:E.
  - apply String.eqb_eq in E. subst t. exfalso. apply Hn. now left.
  - rewrite IH; [reflexivity|]. intros H. apply Hn. now right.
Qed.

(** The priority leaves its initial value only through a [-p] that has a
    token after it. *)
Lemma add_arguments_priority_source : forall rest d p,
  snd (add_arguments rest d p) <> p ->
  exists l1 v l2, rest = l1 ++ "-p" :: v :: l2.
Proof.
  intros rest. induction rest as [|t|t v rest IH IHv] using pair_induction;
    intros d p H.
  - simpl in H. congruence.
  - simpl in H. destruct (String.eqb t "-p"); simpl in H; congruence.
  - cbn [add_arguments] in H. destruct (String.eqb t "-p") eqn:E.
    + apply String.eqb_eq in E. subst t. now exists [], v, rest.
    + destruct (IHv _ _ H) as [l1 [v' [l2 Hl]]].
      exists (t :: l1), v', l2. simpl. now rewrite Hl.
Qed.

(** C10 (amended).  In the [add] command a final [-p] token that does
    not directly follow a [-p] waiting for its value is not treated as a
    priority flag: " -p" is appended to the description built from the
    tokens before it (and "-p" alone is the description of [add -p]), and
    the priority is the one those tokens set -- MEDIUM, with the
    description being all tokens joined by spaces, when none of them is
    [-p].  The priority differs from MEDIUM only if some [-p] token is
    followed by another token. *)
Theorem add_trailing_flag_is_description : forall d rest m w,
  flag_pending rest = false ->
  let before := add_arguments rest d 2 in
  dispatch ("add" :: d :: rest ++ ["-p"]) m w
  = (let (m', w') := add_task (fst before ++ " -p") (snd before) m w in
     (Next, m', w'))
  /\ (~ In "-p" rest -> before = (space_joined d rest, 2))
  /\ dispatch ["add"; "-p"] m w
     = (let (m', w') := add_task "-p" 2 m w in (Next, m', w'))
  /\ (snd before <> 2 -> exists l1 v l2, rest = l1 ++ "-p" :: v :: l2).
Proof.
  intros d rest m w Hf before. subst before.
  split; [|split; [|split]].
  - rewrite dispatch_add, add_arguments_trailing_flag by assumption. reflexivity.
  - apply add_arguments_no_flag.
  - apply dispatch_add.
  - apply add_arguments_priority_source.
Qed.

(* ------------------------------------------------------------------ *)
(** ** The loop and the end of input *)

Lemma main_loop_step : forall fuel m line w,
  main_loop (S fuel) m line w =
  match iteration m line w with
  | (Next, m', line', w') => main_loop fuel m' line' w'
  | (Break, m', _, w') => Left_loop m' w'
  | (Crash, _, _, w') => Undefined w'
  end.
Proof. reflexivity. Qed.

(** Once the stream is no longer good and [line] is empty, an iteration
    prints the prompt, fails to read, sees the empty [line] and
    continues: the state it reaches is again of that kind. *)
Lemma iteration_after_end_of_input : forall m w,
  good (cin w) = false ->
  iteration m EmptyString w =
  (Next, m, EmptyString,
   mkWorld (file w) (mkIstream (buf (cin w)) (eofbit (cin w)) true)
           (cout w ++ ["> "]) (cerr w)).
Proof.
  intros m w H. unfold iteration, bind, print, getline, istream_getline.
  cbn [cin file cout cerr]. rewrite H. reflexivity.
Qed.

Lemma main_loop_spins : forall fuel m w,
  good (cin w) = false ->
  exists w', main_loop fuel m EmptyString w = Still_running m EmptyString w'.
Proof.
  induction fuel as [|fuel IH]; intros m w H.
  - now exists w.
  - rewrite main_loop_step, (iteration_after_end_of_input m w H).
    apply IH. unfold good. cbn [cin failbit]. apply andb_false_r.
Qed.

(** C2 (the code departs from the claim).  On the input that consists
    of the single line [help], the loop is never left, whatever the number
    of iterations: after the input is exhausted [std::getline] fails, the
    loop does not test the stream, finds [line] empty and continues. *)
Theorem end_of_input_does_not_end_loop : forall fuel,
  exists m line w,
    main fuel (start (mkFile Absent true) ("help" ++ endl)) = Still_running m line w.
Proof.
  intros fuel. unfold main.
  destruct (new_manager _) as [m0 w0] eqn:E0.
  destruct (show_help w0) as [[] w1] eqn:E1.
  assert (H : exists m line w, main_loop fuel m0 EmptyString w1 = Still_running m line w).
  { destruct fuel as [|[|fuel]].
    - now exists m0, EmptyString, w1.
    - vm_compute in E0. inversion E0; subst m0 w0. clear E0.
      vm_compute in E1. inversion E1; subst w1. clear E1.
      eexists _, _, _. vm_compute. reflexivity.
    - vm_compute in E0. inversion E0; subst m0 w0. clear E0.
      vm_compute in E1. inversion E1; subst w1. clear E1.
      rewrite main_loop_step.
      match goal with
      | |- context [iteration ?m ?l ?w] =>
          let v := eval vm_compute in (iteration m l w) in
          change (iteration m l w) with v
      end.
      cbv iota beta. rewrite main_loop_step.
      match goal with
      | |- context [iteration ?m ?l ?w] =>
          let v := eval vm_compute in (iteration m l w) in
          change (iteration m l w) with v
      end.
      cbv iota beta.
      match goal with
      | |- context [main_loop fuel ?m EmptyString ?w] =>
          destruct (main_loop_spins fuel m w eq_refl) as [w' Hw']
      end.
      eexists _, _, _. exact Hw'. }
  destruct H as [m [line [w H]]]. rewrite H. now exists m, line, w.
Qed.

(** When the last line of the input has no newline, [line] keeps it after
    the stream has failed, and every further iteration runs it again:
    three iterations on the input [add x] create three tasks. *)
Example unterminated_last_line_repeats :
  exists line w,
    main 3 (start (mkFile Absent true) "add x")
    = Still_running
        (mkManager [mkTask 1 "x" false 2; mkTask 2 "x" false 2; mkTask 3 "x" false 2] 4)
        line w
    /\ line = "add x".
Proof. eexists _, _. split; vm_compute; reflexivity. Qed.

(* ------------------------------------------------------------------ *)
(** ** Marking a task as done *)

Lemma find_if_split : forall p l,
  Exists (fun t => p t = true) l ->
  exists before t after,
    l = before ++ t :: after
    /\ Forall (fun u => p u = false) before
    /\ p t = true
    /\ find_if p l = List.length before.
Proof.
  induction l as [|u l IH]; intros H; [inversion H|].
  destruct (p u) eqn:E.
  - exists [], u, l. simpl. rewrite E. repeat split; auto.
  - inversion H as [? ? Hu|? ? Hl]; subst; [congruence|].
    destruct (IH Hl) as [before [t [after [Hl' [Hb [Ht Hf]]]]]].
    exists (u :: before), t, after. simpl. rewrite E, Hf, Hl'.
    repeat split; auto.
Qed.

Lemma find_if_end : forall p l,
  Forall (fun t => p t = false) l -> find_if p l = List.length l.
Proof.
  induction l as [|u l IH]; intros H; [reflexivity|].
  inversion H as [|? ? Hu Hl]; subst. simpl. rewrite Hu. f_equal. auto.
Qed.

Lemma update_at_middle : forall f before t after,
  update_at (List.length before) f (before ++ t :: after)
  = before ++ f t :: after.
Proof.
  induction before as [|u before IH]; intros t after; simpl; [reflexivity|].
  now rewrite IH.
Qed.

Lemma mark_done_hit : forall i m w before t after,
  tasks m = before ++ t :: after ->
  Forall (fun u => id u <> i) before ->
  id t = i ->
  mark_done i m w =
  let m' := mkManager (before ++ set_completed t :: after) (next_id m) in
  let w' := snd (save_tasks m' w) in
  (m', mkWorld (file w') (cin w') (cout w ++ [("Task marked as completed!" ++ endl)%string])
               (cerr w')).
Proof.
  intros i m w before t after Ht Hb Hid. unfold mark_done.
  assert (Hf : find_if (fun u => id u =? i) (tasks m) = List.length before).
  { rewrite Ht. clear Ht. induction before as [|u before IH]; simpl.
    - now rewrite (proj2 (Z.eqb_eq _ _) Hid).
    - inversion Hb as [|? ? Hu Hb']; subst.
      rewrite (proj2 (Z.eqb_neq _ _) Hu). f_equal. auto. }
  rewrite Hf, Ht, update_at_middle.
  replace (Nat.eqb (List.length before) (List.length (before ++ t :: after)))
    with false.
  2:{ symmetry. apply Nat.eqb_neq. rewrite length_app. simpl. lia. }
  cbn [negb]. unfold bind. cbv zeta.
  pose proof (save_tasks_cout (mkManager (before ++ set_completed t :: after) (next_id m)) w) as Hc.
  destruct (save_tasks _ w) as [[] w1]. simpl in *. now rewrite Hc.
Qed.

Lemma first_match : forall i (l : list Task),
  Exists (fun t => id t = i) l ->
  exists before t after,
    l = before ++ t :: after /\ Forall (fun u => id u <> i) before /\ id t = i.
Proof.
  induction l as [|u l IH]; intros H; [inversion H|].
  destruct (Z.eq_dec (id u) i) as [E|E].
  - now exists [], u, l.
  - inversion H as [? ? Hu|? ? Hl]; subst; [contradiction|].
    destruct (IH Hl) as [before [t [after [Hl' [Hb Ht]]]]].
    exists (u :: before), t, after. rewrite Hl'. repeat split; auto.
Qed.

(** X1.  When the store holds a task of id [i], [mark_done i] sets the
    [completed] flag of the first such task and changes nothing else: the
    other tasks, the order, the id, description and priority of the task
    itself and the counter are kept; it reports success on [cout]. *)
Theorem mark_done_sets_first_match : forall i m w,
  Exists (fun t => id t = i) (tasks m) ->
  exists before t after,
    tasks m = before ++ t :: after
    /\ Forall (fun u => id u <> i) before
    /\ id t = i
    /\ fst (mark_done i m w)
       = mkManager
           (before ++ mkTask (id t) (description t) true (priority t) :: after)
           (next_id m)
    /\ cout (snd (mark_done i m w))
       = cout w ++ [("Task marked as completed!" ++ endl)%string].
Proof.
  intros i m w H.
  destruct (first_match i (tasks m) H) as [before [t [after [Hl [Hb Ht]]]]].
  exists before, t, after.
  rewrite (mark_done_hit i m w before t after Hl Hb Ht).
  repeat split; auto.
Qed.

Lemma mark_done_sets_first_match_witness :
  let m := mkManager [mkTask 1 "a" false 2; mkTask 2 "b" false 1; mkTask 2 "c" false 3] 3 in
  let w := start (mkFile Absent true) EmptyString in
  exists before t after,
    tasks m = before ++ t :: after
    /\ Forall (fun u => id u <> 2) before
    /\ id t = 2
    /\ fst (mark_done 2 m w)
       = mkManager
           (before ++ mkTask (id t) (description t) true (priority t) :: after)
           (next_id m)
    /\ cout (snd (mark_done 2 m w))
       = cout w ++ [("Task marked as completed!" ++ endl)%string].
Proof.
  intros m w.
  assert (H : Exists (fun t => id t = 2) (tasks m)).
  { apply Exists_cons_tl, Exists_cons_hd. reflexivity. }
  exact (mark_done_sets_first_match 2 m w H).
Defined.

(** X2.  [mark_done] is idempotent: on a store that holds a task of id
    [i], a second [mark_done i] succeeds again and leaves the store the
    first one produced. *)
Theorem mark_done_idempotent : forall i m w,
  Exists (fun t => id t = i) (tasks m) ->
  let m1 := fst (mark_done i m w) in
  let w1 := snd (mark_done i m w) in
  fst (mark_done i m1 w1) = m1
  /\ cout (snd (mark_done i m1 w1))
     = cout w1 ++ [("Task marked as completed!" ++ endl)%string].
Proof.
  intros i m w H m1 w1.
  destruct (first_match i (tasks m) H) as [before [t [after [Hl [Hb Ht]]]]].
  pose proof (mark_done_hit i m w before t after Hl Hb Ht) as H1.
  cbv zeta in H1. subst m1 w1. rewrite H1. cbn [fst snd].
  rewrite (mark_done_hit i (mkManager (before ++ set_completed t :: after) (next_id m))
             _ before (set_completed t) after eq_refl Hb Ht).
  split; reflexivity.
Qed.

Lemma mark_done_idempotent_witness :
  let m := mkManager [mkTask 1 "a" false 2; mkTask 2 "b" false 1] 3 in
  let w := start (mkFile Absent true) EmptyString in
  fst (mark_done 2 (fst (mark_done 2 m w)) (snd (mark_done 2 m w)))
  = fst (mark_done 2 m w).
Proof.
  intros m w.
  assert (H : Exists (fun t => id t = 2) (tasks m)).
  { apply Exists_cons_tl, Exists_cons_hd. reflexivity. }
  exact (proj1 (mark_done_idempotent 2 m w H)).
Defined.

Lemma mark_done_absent : forall i m w,
  Forall (fun t => id t <> i) (tasks m) ->
  mark_done i m w
  = (m, printed [("Task with ID " ++ show_int i ++ " not found." ++ endl)%string] w).
Proof.
  intros i m w H. unfold mark_done.
  rewrite find_if_end.
  - rewrite Nat.eqb_refl. reflexivity.
  - eapply Forall_impl; [|exact H]. simpl. intros t Ht. now apply Z.eqb_neq.
Qed.

(** X3.  When no task has the id [i], [mark_done i] reports that the
    task was not found and changes neither the store nor the file. *)
Theorem mark_done_missing : forall i m w,
  Forall (fun t => id t <> i) (tasks m) ->
  mark_done i m w
  = (m, printed [("Task with ID " ++ show_int i ++ " not found." ++ endl)%string] w).
Proof.
  intros i m w H. unfold mark_done.
  assert (E : find_if (fun t => id t =? i) (tasks m) = List.length (tasks m)).
  { apply find_if_end. eapply Forall_impl; [|exact H].
    simpl. intros t Ht. now apply Z.eqb_neq. }
  rewrite E, Nat.eqb_refl. reflexivity.
Qed.

Lemma mark_done_missing_witness :
  let m := mkManager [mkTask 1 "a" false 2] 2 in
  let w := start (mkFile Absent true) EmptyString in
  fst (mark_done 99 m w) = m
  /\ cout (snd (mark_done 99 m w)) = ["Task with ID 99 not found." ++ endl]%string.
Proof.
  intros m w.
  assert (H : Forall (fun t => id t <> 99) (tasks m)).
  { repeat constructor. simpl. lia. }
  rewrite (mark_done_missing 99 m w H). split; reflexivity.
Defined.

(* ------------------------------------------------------------------ *)
(** ** Adding a task *)

Lemma wrap_succ_pred : forall n,
  Int.in_range n -> Int.wrap (Int.wrap (n + 1) - 1) = n.
Proof.
  intros n [Hlo Hhi]. unfold Int.int_min, Int.int_max in *.
  destruct (Z.eq_dec n 2147483647) as [->|Hne]; [reflexivity|].
  rewrite (wrap_in_range (n + 1)) by (unfold Int.in_range, Int.int_min, Int.int_max; lia).
  replace (n + 1 - 1) with n by lia.
  apply wrap_in_range. unfold Int.in_range, Int.int_min, Int.int_max. lia.
Qed.

(** X4.  [add_task] appends one pending task that carries the current
    counter as its id and the given description and priority, keeps the
    tasks already there, and the id it prints is the id of that task --
    also when the counter is [INT_MAX] and the increment wraps. *)
Theorem add_task_reports_assigned_id : forall d p m w,
  Int.in_range (next_id m) ->
  tasks (fst (add_task d p m w)) = tasks m ++ [mkTask (next_id m) d false p]
  /\ cout (snd (add_task d p m w))
     = cout w ++ [("Task added with ID: " ++ show_int (next_id m) ++ endl)%string].
Proof.
  intros d p m w Hr. split.
  - now rewrite add_task_manager.
  - unfold add_task, bind. cbn [next_id].
    pose proof (save_tasks_cout
                  (mkManager (tasks m ++ [mkTask (next_id m) d false p])
                             (Int.wrap (next_id m + 1))) w) as Hc.
    destruct (save_tasks _ w) as [[] w1]. cbn [snd] in Hc.
    cbn [print snd cout]. rewrite Hc, (wrap_succ_pred _ Hr). reflexivity.
Qed.

Lemma add_task_reports_assigned_id_witness :
  let m := mkManager [mkTask 1 "a" false 2] 2147483647 in
  let w := start (mkFile Absent true) EmptyString in
  tasks (fst (add_task "b" 3 m w)) = [mkTask 1 "a" false 2; mkTask 2147483647 "b" false 3]
  /\ cout (snd (add_task "b" 3 m w)) = ["Task added with ID: 2147483647" ++ endl]%string.
Proof.
  intros m w.
  assert (Hr : Int.in_range (next_id m)).
  { unfold Int.in_range, Int.int_min, Int.int_max. simpl. lia. }
  exact (add_task_reports_assigned_id "b" 3 m w Hr).
Defined.

(** X5.  When the file cannot be opened for writing, a mutation is not
    rolled back: [add_task] still appends the task in memory and reports
    the id, the file keeps its former content, and the failure is
    reported on [cerr]. *)
Theorem add_task_survives_save_failure : forall d p m w,
  writable (file w) = false ->
  add_task d p m w
  = (mkManager (tasks m ++ [mkTask (next_id m) d false p]) (Int.wrap (next_id m + 1)),
     mkWorld (file w) (cin w)
       (cout w ++ [("Task added with ID: "
                      ++ show_int (Int.wrap (Int.wrap (next_id m + 1) - 1)) ++ endl)%string])
       (cerr w ++ [("Error saving tasks to file." ++ endl)%string])).
Proof.
  intros d p m w H. unfold add_task, bind.
  rewrite save_tasks_readonly by assumption. reflexivity.
Qed.

Lemma add_task_survives_save_failure_witness :
  let w := start (mkFile (Document (JArray [])) false) EmptyString in
  let r := add_task "a" 2 (mkManager [] 1) w in
  tasks (fst r) = [mkTask 1 "a" false 2]
  /\ file (snd r) = file w
  /\ cerr (snd r) = ["Error saving tasks to file." ++ endl]%string.
Proof.
  intros w r. subst r.
  rewrite (add_task_survives_save_failure "a" 2 (mkManager [] 1) w eq_refl).
  repeat split.
Defined.

(* ------------------------------------------------------------------ *)
(** ** The counter after a load *)

Lemma load_items_counter : forall its acc nid ts nid',
  load_items its acc nid = Some (ts, nid') ->
  Forall (fun t => id t < Int.int_max) ts ->
  exists new, ts = acc ++ new
              /\ nid' = fold_left (fun n t => Z.max n (id t + 1)) new nid.
Proof.
  induction its as [|item its IH]; intros acc nid ts nid' H Hmax; simpl in H.
  - inversion H; subst. exists []. now rewrite app_nil_r.
  - destruct (from_json item) as [task|] eqn:Ej; [|discriminate]. simpl in H.
    destruct (IH _ _ _ _ H Hmax) as [new [Hts Hn]].
    exists (task :: new). rewrite Hts, <- app_assoc. split; [reflexivity|].
    cbn [fold_left]. rewrite Hn. f_equal.
    assert (Htask : id task < Int.int_max).
    { rewrite Forall_forall in Hmax. apply Hmax. rewrite Hts.
      apply in_or_app. left. apply in_or_app. right. now left. }
    pose proof (from_json_ok _ _ Ej) as [[Hlo _] _].
    destruct (id task >=? nid) eqn:E.
    + rewrite wrap_in_range
        by (unfold Int.in_range, Int.int_min, Int.int_max in *; lia). lia.
    + lia.
Qed.

Lemma fold_max_above : forall ts n,
  1 <= n ->
  fold_left (fun n t => Z.max n (id t + 1)) ts n = Z.max n (above_ids ts).
Proof.
  induction ts as [|t ts IH]; intros n Hn.
  - simpl. lia.
  - cbn [fold_left]. rewrite IH by lia.
    change (above_ids (t :: ts)) with (Z.max (id t + 1) (above_ids ts)). lia.
Qed.

(** X6.  After construction, unless a loaded id is [INT_MAX], the
    counter is exactly one more than the greatest id in the store, and 1
    when the store is empty or all its ids are negative or zero. *)
Theorem new_manager_counter_exact : forall w,
  let m0 := fst (new_manager w) in
  Forall (fun t => id t < Int.int_max) (tasks m0) ->
  next_id m0 = above_ids (tasks m0).
Proof.
  intros w. unfold new_manager, load_tasks, bind, read_file. cbn [fst snd].
  destruct (content (file w)) as [| |j].
  - destruct (save_tasks _ w). reflexivity.
  - reflexivity.
  - cbn [next_id].
    destruct (load_items (Json.items j) [] 1) as [[ts nid]|] eqn:E;
      [|reflexivity].
    unfold ret. cbn [fst tasks next_id]. intros Hmax.
    destruct (load_items_counter _ _ _ _ _ E Hmax) as [new [Hts Hn]].
    simpl in Hts. subst ts nid. rewrite fold_max_above by lia.
    assert (1 <= above_ids new).
    { clear. induction new as [|t new IH]; [simpl; lia|].
      change (above_ids (t :: new)) with (Z.max (id t + 1) (above_ids new)). lia. }
    unfold ret. cbn [fst tasks next_id]. lia.
Qed.

Lemma new_manager_counter_exact_witness :
  let doc := JArray [to_json (mkTask 3 "a" false 2);
                     to_json (mkTask 7 "b" true 1);
                     to_json (mkTask 5 "c" false 3)] in
  next_id (fst (new_manager (start (mkFile (Document doc) true) EmptyString))) = 8.
Proof.
  intros doc.
  rewrite (new_manager_counter_exact
             (start (mkFile (Document doc) true) EmptyString)).
  - reflexivity.
  - repeat constructor.
Defined.

(* ------------------------------------------------------------------ *)
(** ** What a command can do *)

Lemma bind_print_first : forall (A : Type) s (k : unit -> IO A) w,
  bind (print s) k w = k tt (printed [s] w).
Proof. reflexivity. Qed.

Lemma bind_print_next : forall (A : Type) s (k : unit -> IO A) out w,
  bind (print s) k (printed out w) = k tt (printed (out ++ [s]) w).
Proof.
  intros A s k out w. unfold bind, print, printed. cbn [file cin cout cerr].
  now rewrite <- app_assoc.
Qed.

Lemma print_printed : forall s out w,
  print s (printed out w) = (tt, printed (out ++ [s]) w).
Proof.
  intros s out w. unfold print, printed. cbn [file cin cout cerr].
  now rewrite <- app_assoc.
Qed.

Lemma show_help_prints : forall w, exists out, show_help w = (tt, printed out w).
Proof.
  intros w. unfold show_help.
  rewrite bind_print_first. cbv beta.
  repeat (rewrite bind_print_next; cbv beta).
  rewrite print_printed. eexists. reflexivity.
Qed.

Lemma stoi_in_range : forall s i, stoi s = Some i -> Int.in_range i.
Proof.
  intros s i. unfold stoi.
  destruct (skip_space s) as [|c s']; [discriminate|].
  destruct (Ascii.eqb c "-"); [|destruct (Ascii.eqb c "+")];
    match goal with
    | |- (if starts_with_digit ?x then _ else _) = _ -> _ =>
        destruct (starts_with_digit x); [|discriminate]
    end;
    match goal with
    | |- (if Int.in_rangeb ?v then _ else _) = _ -> _ =>
        destruct (Int.in_rangeb v) eqn:E; [|discriminate]
    end;
    intros H; inversion H; subst;
    unfold Int.in_rangeb in E; apply andb_prop in E as [E1 E2];
    apply Z.leb_le in E1, E2; split; assumption.
Qed.

Lemma parse_priority_range : forall s,
  parse_priority s = 1 \/ parse_priority s = 2 \/ parse_priority s = 3.
Proof.
  intros s. unfold parse_priority.
  destruct (String.eqb s "high"); [now left|].
  destruct (String.eqb s "low"); [now right; right|now right; left].
Qed.

Lemma add_arguments_priority_range : forall rest d p,
  (p = 1 \/ p = 2 \/ p = 3) ->
  let q := snd (add_arguments rest d p) in q = 1 \/ q = 2 \/ q = 3.
Proof.
  intros rest. induction rest as [|t|t v rest IH IHv] using pair_induction;
    intros d p Hp.
  - exact Hp.
  - simpl. destruct (String.eqb t "-p"); exact Hp.
  - cbn [add_arguments]. destruct (String.eqb t "-p").
    + apply IH, parse_priority_range.
    + apply IHv, Hp.
Qed.

(** Every command is one of: the out-of-range access on a line without
    tokens, [exit], a command that only prints, or one call of
    [add_task], [mark_done] or [delete_task]. *)
Lemma dispatch_cases : forall tokens m w,
  (tokens = [] /\ dispatch tokens m w = (Crash, m, w))
  \/ (exists args, tokens = "exit" :: args /\ dispatch tokens m w = (Break, m, w))
  \/ (exists out, dispatch tokens m w = (Next, m, printed out w))
  \/ (exists d p, (p = 1 \/ p = 2 \/ p = 3)
                  /\ dispatch tokens m w
                     = (let (m', w') := add_task d p m w in (Next, m', w')))
  \/ (exists i, Int.in_range i
                /\ dispatch tokens m w
                   = (let (m', w') := mark_done i m w in (Next, m', w')))
  \/ (exists i, Int.in_range i
                /\ dispatch tokens m w
                   = (let (m', w') := delete_task i m w in (Next, m', w'))).
Proof.
  intros [|command args] m w; [now left|]. right.
  unfold dispatch.
  destruct (String.eqb command "exit") eqn:Eexit.
  { apply String.eqb_eq in Eexit. subst. left. now exists args. }
  right.
  destruct (String.eqb command "help") eqn:Ehelp.
  { left. destruct (show_help_prints w) as [out Hout].
    exists out. unfold bind. now rewrite Hout. }
  destruct (String.eqb command "add" && Nat.leb 2 (List.length (command :: args))) eqn:Eadd.
  { right. left.
    destruct (add_arguments (skipn 2 (command :: args))
                (nth 1 (command :: args) EmptyString) 2) as [d p] eqn:Ea.
    exists d, p. split.
    - pose proof (add_arguments_priority_range (skipn 2 (command :: args))
                    (nth 1 (command :: args) EmptyString) 2 (or_intror (or_introl eq_refl))) as H.
      rewrite Ea in H. exact H.
    - unfold bind. destruct (add_task d p m w). reflexivity. }
  destruct (String.eqb command "list") eqn:Elist.
  { left. eexists. unfold bind. rewrite list_tasks_output. reflexivity. }
  destruct (String.eqb command "done" && Nat.eqb (List.length (command :: args)) 2) eqn:Edone.
  { destruct (stoi (nth 1 (command :: args) EmptyString)) as [i|] eqn:Es.
    - right. right. left. exists i. split; [eapply stoi_in_range; eauto|].
      unfold bind. destruct (mark_done i m w). reflexivity.
    - left. eexists. reflexivity. }
  destruct (String.eqb command "delete" && Nat.eqb (List.length (command :: args)) 2) eqn:Edel.
  { destruct (stoi (nth 1 (command :: args) EmptyString)) as [i|] eqn:Es.
    - right. right. right. exists i. split; [eapply stoi_in_range; eauto|].
      unfold bind. destruct (delete_task i m w). reflexivity.
    - left. eexists. reflexivity. }
  left. eexists. reflexivity.
Qed.

(** X7.  The loop is left through the [exit] command only: a command
    yields [break] exactly when its first token is [exit], whatever
    follows it on the line, and then neither the store nor the world is
    touched. *)
Theorem dispatch_break_iff_exit : forall tokens m w,
  (fst (fst (dispatch tokens m w)) = Break <-> exists args, tokens = "exit" :: args)
  /\ (forall args, dispatch ("exit" :: args) m w = (Break, m, w)).
Proof.
  intros tokens m w. split; [|reflexivity]. split.
  - intros H.
    destruct (dispatch_cases tokens m w)
      as [[_ E]|[[args [Ht _]]|[[out E]|[[d [p [_ E]]]|[[i [_ E]]|[i [_ E]]]]]]];
      try (now exists args); rewrite E in H; try discriminate.
    + destruct (add_task d p m w); discriminate.
    + destruct (mark_done i m w); discriminate.
    + destruct (delete_task i m w); discriminate.
  - intros [args ->]. reflexivity.
Qed.

(** X8.  A line whose command is not recognised, or is recognised with
    the wrong number of arguments ([add] alone, [done] or [delete] without
    exactly one argument), is answered with the "Unknown command" message
    and changes nothing. *)
Theorem dispatch_unknown : forall command args m w,
  command <> "exit" -> command <> "help" -> command <> "list" ->
  (command = "add" -> args = []) ->
  (command = "done" \/ command = "delete" -> List.length args <> 1%nat) ->
  dispatch (command :: args) m w
  = (Next, m,
     printed [("Unknown command. Type 'help' for available commands." ++ endl)%string] w).
Proof.
  intros command args m w Hexit Hhelp Hlist Hadd Harg.
  unfold dispatch.
  rewrite (proj2 (String.eqb_neq _ _) Hexit), (proj2 (String.eqb_neq _ _) Hhelp),
          (proj2 (String.eqb_neq _ _) Hlist).
  assert (E1 : String.eqb command "add" && Nat.leb 2 (List.length (command :: args)) = false).
  { destruct (String.eqb_spec command "add") as [E|E]; [|reflexivity].
    rewrite (Hadd E). reflexivity. }
  assert (E2 : String.eqb command "done" && Nat.eqb (List.length (command :: args)) 2 = false).
  { destruct (String.eqb_spec command "done") as [E|E]; [|reflexivity].
    simpl. apply Nat.eqb_neq. intros H. apply (Harg (or_introl E)).
    simpl in H. lia. }
  assert (E3 : String.eqb command "delete" && Nat.eqb (List.length (command :: args)) 2 = false).
  { destruct (String.eqb_spec command "delete") as [E|E]; [|reflexivity].
    simpl. apply Nat.eqb_neq. intros H. apply (Harg (or_intror E)).
    simpl in H. lia. }
  rewrite E1, E2, E3. reflexivity.
Qed.

(* ------------------------------------------------------------------ *)
(** ** Invariants of a session *)

Lemma id_presence : forall i (l : list Task),
  Exists (fun t => id t = i) l \/ Forall (fun t => id t <> i) l.
Proof.
  induction l as [|t l [IH|IH]].
  - right. constructor.
  - left. now apply Exists_cons_tl.
  - destruct (Z.eq_dec (id t) i) as [E|E].
    + left. now apply Exists_cons_hd.
    + right. now constructor.
Qed.

(** An iteration prints the prompt, reads, and then either continues at
    once or runs one command in a world that differs from the initial one
    in [cin] and [cout] only. *)
Lemma iteration_cases : forall m line w c m' line' w',
  iteration m line w = (c, m', line', w') ->
  exists w1,
    file w1 = file w /\ cerr w1 = cerr w
    /\ ((c = Next /\ m' = m /\ w' = w1)
        \/ exists tokens, dispatch tokens m w1 = (c, m', w')).
Proof.
  intros m line w c m' line' w'. unfold iteration, bind, print, getline.
  cbn [file cin cout cerr].
  destruct (istream_getline (cin w) line) as [ins l1].
  set (w1 := mkWorld (file w) ins (cout w ++ ["> "]) (cerr w)).
  destruct (String.eqb l1 EmptyString).
  - intros H. inversion H; subst. exists w1. repeat split. now left.
  - destruct (dispatch (split_command l1) m w1) as [[c1 m1] w2] eqn:E.
    intros H. inversion H; subst. exists w1. repeat split.
    right. eexists. eassumption.
Qed.

Section LoopInvariant.

Variable P : nat -> TaskManager -> World -> Prop.

Hypothesis P_iteration : forall n m line w c m' line' w',
  P (S n) m w ->
  iteration m line w = (c, m', line', w') ->
  c <> Crash ->
  P n m' w'.

(** A property the iterations hand on holds of the state in which the
    loop is left or still running. *)
Lemma main_loop_invariant : forall fuel m line w,
  P fuel m w ->
  forall m' w',
    (exists line', main_loop fuel m line w = Still_running m' line' w')
    \/ main_loop fuel m line w = Left_loop m' w' ->
    exists n, P n m' w'.
Proof.
  induction fuel as [|fuel IH]; intros m line w HP m' w' H.
  - destruct H as [[line' H]|H]; simpl in H; inversion H; subst. now exists 0%nat.
  - rewrite main_loop_step in H.
    destruct (iteration m line w) as [[[c m1] l1] w1] eqn:E.
    destruct c.
    + apply (IH m1 l1 w1); [|exact H].
      apply (P_iteration fuel m line w Next m1 l1 w1 HP E). discriminate.
    + destruct H as [[line' H]|H]; inversion H; subst. exists fuel.
      apply (P_iteration fuel m line w Break m' l1 w' HP E). discriminate.
    + destruct H as [[line' H]|H]; discriminate.
Qed.

End LoopInvariant.

Lemma synced_printed : forall m out w, synced m w -> synced m (printed out w).
Proof. intros m out w H. exact H. Qed.

Lemma add_task_synced : forall d p m w,
  writable (file w) = true ->
  synced (fst (add_task d p m w)) (snd (add_task d p m w))
  /\ cerr (snd (add_task d p m w)) = cerr w.
Proof.
  intros d p m w H. unfold add_task, bind.
  rewrite save_tasks_writable by assumption. split; [split|]; reflexivity.
Qed.

Lemma mark_done_synced : forall i m w,
  synced m w ->
  synced (fst (mark_done i m w)) (snd (mark_done i m w))
  /\ cerr (snd (mark_done i m w)) = cerr w.
Proof.
  intros i m w [Hc Hw].
  destruct (id_presence i (tasks m)) as [H|H].
  - destruct (first_match i (tasks m) H) as [before [t [after [Hl [Hb Ht]]]]].
    rewrite (mark_done_hit i m w before t after Hl Hb Ht). cbv zeta.
    rewrite save_tasks_writable by assumption. split; [split|]; reflexivity.
  - rewrite (mark_done_absent i m w H). split; [split|]; assumption || reflexivity.
Qed.

Lemma delete_task_synced : forall i m w,
  synced m w ->
  synced (fst (delete_task i m w)) (snd (delete_task i m w))
  /\ cerr (snd (delete_task i m w)) = cerr w.
Proof.
  intros i m w [Hc Hw].
  destruct (id_presence i (tasks m)) as [H|H].
  - rewrite (delete_task_found i m w H). cbv zeta.
    rewrite save_tasks_writable by assumption. split; [split|]; reflexivity.
  - rewrite (delete_task_missing i m w H). split; [split|]; assumption || reflexivity.
Qed.

Lemma dispatch_synced : forall tokens m w c m' w',
  synced m w ->
  dispatch tokens m w = (c, m', w') ->
  synced m' w' /\ cerr w' = cerr w.
Proof.
  intros tokens m w c m' w' Hs E.
  destruct (dispatch_cases tokens m w)
    as [[_ H]|[[args [_ H]]|[[out H]|[[d [p [_ H]]]|[[i [_ H]]|[i [_ H]]]]]]];
    rewrite H in E.
  - inversion E; subst. now split.
  - inversion E; subst. now split.
  - inversion E; subst. now split.
  - pose proof (add_task_synced d p m w (proj2 Hs)) as Ha.
    destruct (add_task d p m w). inversion E; subst. exact Ha.
  - pose proof (mark_done_synced i m w Hs) as Ha.
    destruct (mark_done i m w). inversion E; subst. exact Ha.
  - pose proof (delete_task_synced i m w Hs) as Ha.
    destruct (delete_task i m w). inversion E; subst. exact Ha.
Qed.

Lemma main_loop_synced : forall fuel m line w m' w',
  synced m w ->
  (exists line', main_loop fuel m line w = Still_running m' line' w')
  \/ main_loop fuel m line w = Left_loop m' w' ->
  synced m' w' /\ cerr w' = cerr w.
Proof.
  intros fuel m line w m' w' Hs H.
  destruct (main_loop_invariant
              (fun _ m1 w1 => synced m1 w1 /\ cerr w1 = cerr w)) 
    with (fuel := fuel) (m := m) (line := line) (w := w) (m' := m') (w' := w')
    as [_ Hn]; auto.
  intros n m0 line0 w0 c m1 line1 w1 [Hs0 Hc0] E _.
  destruct (iteration_cases _ _ _ _ _ _ _ E) as [w2 [Hf [Hc [[_ [-> ->]]|[tokens Hd]]]]].
  - split; [|congruence]. destruct Hs0 as [A B]. split; congruence.
  - assert (Hs2 : synced m0 w2).
    { destruct Hs0 as [A B]. split; congruence. }
    destruct (dispatch_synced _ _ _ _ _ _ Hs2 Hd). split; [assumption|congruence].
Qed.

(** X9.  A session started without a backing file, or on a file this
    program wrote, keeps the file in step with the store: whatever the
    input and however many iterations have run, the file holds exactly the
    document of the tasks in memory and nothing has been written to
    [cerr]. *)
Theorem session_file_mirrors_store : forall fuel input c m line w,
  c = Absent \/ (exists ts, Forall task_ok ts /\ c = Document (tasks_document ts)) ->
  main fuel (start (mkFile c true) input) = Still_running m line w
  \/ main fuel (start (mkFile c true) input) = Left_loop m w ->
  content (file w) = Document (tasks_document (tasks m)) /\ cerr w = [].
Proof.
  intros fuel input c m line w Hc H. unfold main in H.
  set (w0 := start (mkFile c true) input) in *.
  assert (H0 : synced (fst (new_manager w0)) (snd (new_manager w0))
               /\ cerr (snd (new_manager w0)) = []).
  { unfold new_manager, load_tasks, bind, read_file. cbn [content file w0 start].
    destruct Hc as [->|[ts [Hok ->]]].
    - rewrite save_tasks_writable by reflexivity. repeat split.
    - rewrite items_tasks_document, load_items_to_json by assumption.
      repeat split. }
  destruct (new_manager w0) as [m0 w1]. cbn [fst snd] in H0.
  destruct H0 as [Hs Herr].
  destruct (show_help_prints w1) as [out Hout]. rewrite Hout in H.
  assert (Hs1 : synced m0 (printed out w1)) by exact Hs.
  destruct (main_loop fuel m0 EmptyString (printed out w1)) as [m2 w2|w2|m2 l2 w2] eqn:E.
  - destruct H as [H|H]; [discriminate|]. cbn in H. inversion H; subst.
    destruct (main_loop_synced fuel m0 EmptyString (printed out w1) m w2 Hs1) as [[A _] B].
    { now right. }
    split; [exact A|]. cbn [cerr printed] in *. congruence.
  - destruct H; discriminate.
  - destruct H as [H|H]; [|discriminate]. inversion H; subst.
    destruct (main_loop_synced fuel m0 EmptyString (printed out w1) m w Hs1) as [[A _] B].
    { left. now exists line. }
    split; [exact A|]. cbn [cerr printed] in *. congruence.
Qed.

Lemma update_at_ids : forall n l,
  map id (update_at n set_completed l) = map id l.
Proof.
  induction n as [|n IH]; intros [|t l]; simpl; try reflexivity.
  now rewrite IH.
Qed.

Lemma update_at_below : forall (bound : Z) n l,
  Forall (fun t => id t < bound) l ->
  Forall (fun t => id t < bound) (update_at n set_completed l).
Proof.
  intros bound n l H. rewrite Forall_forall in *. intros t Ht.
  assert (Hin : In (id t) (map id (update_at n set_completed l))) by now apply in_map.
  rewrite update_at_ids in Hin. apply in_map_iff in Hin as [u [Hu Hin]].
  rewrite <- Hu. now apply H.
Qed.

Lemma remove_if_distinct : forall p (l : list Task),
  NoDup (map id l) -> NoDup (map id (remove_if p l)).
Proof.
  induction l as [|t l IH]; intros H; simpl; [constructor|].
  simpl in H. inversion H as [|? ? Hn Hl]; subst.
  destruct (p t); [auto|]. simpl. constructor; [|auto].
  intros Hin. apply Hn. apply in_map_iff in Hin as [u [Hu Hin]].
  rewrite remove_if_filter in Hin. apply filter_In in Hin as [Hin _].
  rewrite <- Hu. now apply in_map.
Qed.

Lemma remove_if_below : forall p (bound : Z) (l : list Task),
  Forall (fun t => id t < bound) l ->
  Forall (fun t => id t < bound) (remove_if p l).
Proof.
  intros p bound l H. rewrite remove_if_filter, Forall_forall in *.
  intros t Ht. apply filter_In in Ht as [Ht _]. auto.
Qed.

Lemma add_task_distinct : forall d p m w,
  distinct_ids m ->
  Int.int_min <= next_id m < Int.int_max ->
  distinct_ids (fst (add_task d p m w))
  /\ next_id (fst (add_task d p m w)) = next_id m + 1.
Proof.
  intros d p m w [Hnd Hb] Hr. rewrite add_task_manager. cbn [next_id].
  assert (Hw : Int.wrap (next_id m + 1) = next_id m + 1).
  { apply wrap_in_range. unfold Int.in_range, Int.int_min, Int.int_max in *. lia. }
  split; [|exact Hw]. split; cbn [tasks next_id].
  - rewrite map_app. simpl. apply NoDup_app.
    + assumption.
    + repeat constructor. intros [].
    + intros x Hx [<-|[]]. apply in_map_iff in Hx as [t [Ht Hin]].
      rewrite Forall_forall in Hb. specialize (Hb t Hin). lia.
  - rewrite Hw. apply Forall_app. split.
    + eapply Forall_impl; [|exact Hb]. simpl. intros t Ht. lia.
    + repeat constructor. simpl. lia.
Qed.

Lemma mark_done_manager : forall i m w,
  fst (mark_done i m w) = m
  \/ exists n, fst (mark_done i m w)
               = mkManager (update_at n set_completed (tasks m)) (next_id m).
Proof.
  intros i m w. unfold mark_done.
  destruct (negb _); [|now left].
  right. eexists. unfold bind. destruct (save_tasks _ w) as [[] w1]. reflexivity.
Qed.

Lemma delete_task_manager : forall i m w,
  fst (delete_task i m w) = m
  \/ fst (delete_task i m w)
     = mkManager (remove_if (fun t => id t =? i) (tasks m)) (next_id m).
Proof.
  intros i m w. unfold delete_task.
  destruct (negb _); [|now left].
  right. unfold bind. destruct (save_tasks _ w) as [[] w1]. reflexivity.
Qed.

Lemma mark_done_distinct : forall i m w,
  distinct_ids m ->
  distinct_ids (fst (mark_done i m w))
  /\ next_id (fst (mark_done i m w)) = next_id m.
Proof.
  intros i m w [Hnd Hb].
  destruct (mark_done_manager i m w) as [->|[n ->]].
  - split; [|reflexivity]. now split.
  - split; [|reflexivity]. split; cbn [tasks next_id].
    + now rewrite update_at_ids.
    + now apply update_at_below.
Qed.

Lemma delete_task_distinct : forall i m w,
  distinct_ids m ->
  distinct_ids (fst (delete_task i m w))
  /\ next_id (fst (delete_task i m w)) = next_id m.
Proof.
  intros i m w [Hnd Hb].
  destruct (delete_task_manager i m w) as [->| ->].
  - split; [|reflexivity]. now split.
  - split; [|reflexivity]. split; cbn [tasks next_id].
    + now apply remove_if_distinct.
    + now apply remove_if_below.
Qed.

Lemma dispatch_distinct : forall tokens m w c m' w',
  distinct_ids m ->
  Int.int_min <= next_id m < Int.int_max ->
  dispatch tokens m w = (c, m', w') ->
  distinct_ids m' /\ next_id m <= next_id m' <= next_id m + 1.
Proof.
  intros tokens m w c m' w' Hd Hr E.
  destruct (dispatch_cases tokens m w)
    as [[_ H]|[[args [_ H]]|[[out H]|[[d [p [_ H]]]|[[i [_ H]]|[i [_ H]]]]]]];
    rewrite H in E.
  - inversion E; subst. split; [assumption|lia].
  - inversion E; subst. split; [assumption|lia].
  - inversion E; subst. split; [assumption|lia].
  - destruct (add_task_distinct d p m w Hd Hr) as [A B].
    destruct (add_task d p m w). inversion E; subst. cbn [fst] in *.
    split; [assumption|lia].
  - destruct (mark_done_distinct i m w Hd) as [A B].
    destruct (mark_done i m w). inversion E; subst. cbn [fst] in *.
    split; [assumption|lia].
  - destruct (delete_task_distinct i m w Hd) as [A B].
    destruct (delete_task i m w). inversion E; subst. cbn [fst] in *.
    split; [assumption|lia].
Qed.

(** X10.  From a store whose ids are distinct and below the counter, as
    long as the iterations left cannot take the counter to [INT_MAX], the
    loop keeps the ids of the store distinct and below the counter,
    whatever commands the input holds; the counter never decreases. *)
Theorem session_keeps_ids_distinct : forall fuel m line w m' w',
  distinct_ids m ->
  Int.int_min <= next_id m ->
  next_id m + Z.of_nat fuel <= Int.int_max ->
  (exists line', main_loop fuel m line w = Still_running m' line' w')
  \/ main_loop fuel m line w = Left_loop m' w' ->
  distinct_ids m' /\ next_id m <= next_id m' <= next_id m + Z.of_nat fuel.
Proof.
  intros fuel m line w m' w' Hd Hlo Hhi H.
  destruct (main_loop_invariant
              (fun n m1 _ => distinct_ids m1
                             /\ next_id m <= next_id m1
                             /\ next_id m1 + Z.of_nat n <= next_id m + Z.of_nat fuel))
    with (fuel := fuel) (m := m) (line := line) (w := w) (m' := m') (w' := w')
    as [n [A [B C]]]; auto.
  - intros n m0 line0 w0 c m1 line1 w1 [Hd0 [Hlo0 Hhi0]] E _.
    destruct (iteration_cases _ _ _ _ _ _ _ E) as [w2 [_ [_ [[_ [-> ->]]|[tokens Ht]]]]].
    + split; [exact Hd0|split; lia].
    + destruct (dispatch_distinct tokens m0 w2 c m1 w1 Hd0 ltac:(lia) Ht) as [A B].
      split; [exact A|split; lia].
  - split; [exact Hd|split; lia].
  - split; [exact A|]. lia.
Qed.

(* ------------------------------------------------------------------ *)
(** ** The arguments of [add] *)

(** X11.  The loop over the arguments of [add] works from left to
    right: after a prefix that does not end in a [-p] waiting for its
    value, the remaining tokens are processed from the description and
    priority the prefix produced.  In particular a final [-p v] sets the
    priority to [parse_priority v], whatever flags came before, and adds
    nothing to the description. *)
Theorem add_arguments_app : forall l1 l2 d p,
  flag_pending l1 = false ->
  add_arguments (l1 ++ l2) d p
  = add_arguments l2 (fst (add_arguments l1 d p)) (snd (add_arguments l1 d p))
  /\ forall v, add_arguments (l1 ++ ["-p"; v]) d p
               = (fst (add_arguments l1 d p), parse_priority v).
Proof.
  assert (H : forall l1 l2 d p,
             flag_pending l1 = false ->
             add_arguments (l1 ++ l2) d p
             = add_arguments l2 (fst (add_arguments l1 d p))
                             (snd (add_arguments l1 d p))).
  { intros l1 l2. induction l1 as [|t|t v rest IH IHv] using pair_induction;
      intros d p Hf.
    - reflexivity.
    - simpl in Hf. simpl. destruct (String.eqb t "-p"); [discriminate|reflexivity].
    - cbn [flag_pending] in Hf. cbn [app add_arguments].
      destruct (String.eqb t "-p").
      + apply IH, Hf.
      + apply (IHv (d ++ " " ++ t)%string p Hf). }
  intros l1 l2 d p Hf. split; [now apply H|].
  intros v. rewrite H by assumption. reflexivity.
Qed.

Lemma add_arguments_app_witness :
  add_arguments (["milk"; "-p"; "low"; "now"] ++ ["-p"; "high"]) "Buy" 2
  = ("Buy milk now", 1).
Proof.
  rewrite (proj2 (add_arguments_app ["milk"; "-p"; "low"; "now"] [] "Buy" 2 eq_refl) "high").
  reflexivity.
Defined.

(** X12.  Every [add] command with at least one argument creates
    exactly one task: it is appended after the tasks of the store, it is
    pending, its id is the counter, and its priority is 1, 2 or 3,
    whatever the tokens of the line are. *)
Theorem add_command_creates_pending_task : forall d rest m w,
  exists desc p,
    tasks (snd (fst (dispatch ("add" :: d :: rest) m w)))
    = tasks m ++ [mkTask (next_id m) desc false p]
    /\ (p = 1 \/ p = 2 \/ p = 3).
Proof.
  intros d rest m w. rewrite dispatch_add.
  exists (fst (add_arguments rest d 2)), (snd (add_arguments rest d 2)). split.
  - pose proof (add_task_manager (fst (add_arguments rest d 2))
                  (snd (add_arguments rest d 2)) m w) as H.
    destruct (add_task _ _ m w) as [m' w']. cbn [fst snd] in *. now rewrite H.
  - apply add_arguments_priority_range. right. now left.
Qed.

(* ------------------------------------------------------------------ *)
(** ** The tokenizer *)

Lemma append_assoc : forall a b c : string,
  ((a ++ b) ++ c)%string = (a ++ (b ++ c))%string.
Proof. induction a as [|x a IH]; intros b c; simpl; [reflexivity|now rewrite IH]. Qed.

Lemma append_empty_r : forall a : string, (a ++ EmptyString)%string = a.
Proof. induction a as [|x a IH]; simpl; [reflexivity|now rewrite IH]. Qed.

Lemma push_char_append : forall acc c t,
  (push_char acc c ++ t)%string = (acc ++ String c t)%string.
Proof. intros acc c t. unfold push_char. now rewrite append_assoc. Qed.

Lemma lex_blank : forall s, blank s -> lex Between s = [].
Proof.
  induction s as [|c s IH]; intros H; [reflexivity|].
  destruct H as [Hc Hs]. simpl. rewrite Hc. auto.
Qed.

(** A bare token runs up to the next white space or the end of the line. *)
Lemma lex_bare_end : forall t acc,
  none_of isspace t -> lex (Bare acc) t = [(acc ++ t)%string].
Proof.
  induction t as [|c t IH]; intros acc H.
  - simpl. now rewrite append_empty_r.
  - destruct H as [Hc Ht]. simpl. rewrite Hc, IH by assumption.
    now rewrite push_char_append.
Qed.

Lemma lex_bare_space : forall t acc sp u,
  none_of isspace t -> isspace sp = true ->
  lex (Bare acc) (t ++ String sp u) = (acc ++ t)%string :: lex Between u.
Proof.
  induction t as [|c t IH]; intros acc sp u H Hsp.
  - simpl. now rewrite Hsp, append_empty_r.
  - destruct H as [Hc Ht]. simpl. rewrite Hc, IH by assumption.
    now rewrite push_char_append.
Qed.

Lemma lex_plain_end : forall t, plain t -> lex Between t = [t].
Proof.
  intros [|c t] H; [contradiction|].
  destruct H as [Hq [Hc Ht]]. simpl. rewrite Hc, Hq.
  now rewrite lex_bare_end.
Qed.

Lemma lex_plain_space : forall t sp u,
  plain t -> isspace sp = true ->
  lex Between (t ++ String sp u) = t :: lex Between u.
Proof.
  intros [|c t] sp u H Hsp; [contradiction|].
  destruct H as [Hq [Hc Ht]]. simpl. rewrite Hc, Hq.
  now rewrite lex_bare_space.
Qed.

Lemma space_joined_append : forall rest d e,
  space_joined (d ++ e) rest = (d ++ space_joined e rest)%string.
Proof.
  induction rest as [|t rest IH]; intros d e; [reflexivity|].
  unfold space_joined in *. cbn [fold_left].
  rewrite <- IH. f_equal. now rewrite !append_assoc.
Qed.

Lemma space_joined_cons : forall t r rest,
  space_joined t (r :: rest) = (t ++ String " " (space_joined r rest))%string.
Proof.
  intros t r rest.
  change (space_joined t (r :: rest)) with (space_joined (t ++ " " ++ r) rest).
  rewrite space_joined_append.
  change (" " ++ r)%string with (String " " EmptyString ++ r)%string.
  now rewrite space_joined_append.
Qed.

(** X13.  Tokens that need no quoting come back from the line that
    joins them with single spaces: [split_command] undoes the joining. *)
Theorem split_command_space_joined : forall t rest,
  Forall plain (t :: rest) ->
  split_command (space_joined t rest) = t :: rest.
Proof.
  intros t rest. revert t. unfold split_command.
  induction rest as [|r rest IH]; intros t H.
  - inversion H; subst. now apply lex_plain_end.
  - inversion H as [|? ? Ht Hr]; subst.
    rewrite space_joined_cons, lex_plain_space by (assumption || reflexivity).
    f_equal. now apply IH.
Qed.

Lemma split_command_space_joined_witness :
  split_command (space_joined "add" ["Walk"; "the"; "dog"]) = ["add"; "Walk"; "the"; "dog"].
Proof.
  apply split_command_space_joined.
  repeat constructor.
Defined.

Lemma lex_quoted : forall s acc u,
  lex (Quoted acc) (escape s ++ String dquote u) = (acc ++ s)%string :: lex Between u.
Proof.
  induction s as [|c s IH]; intros acc u.
  - simpl. now rewrite append_empty_r.
  - cbn [escape]. destruct (Ascii.eqb c backslash) eqn:Eb.
    + cbn [orb append lex]. change (Ascii.eqb backslash backslash) with true.
      cbv iota. rewrite IH. now rewrite push_char_append.
    + destruct (Ascii.eqb c dquote) eqn:Eq.
      * cbn [orb append lex]. change (Ascii.eqb backslash backslash) with true.
        cbv iota. rewrite IH. now rewrite push_char_append.
      * cbn [orb append lex]. rewrite Eb, Eq, IH. now rewrite push_char_append.
Qed.

Lemma lex_quoted_token : forall s u,
  lex Between (quoted s ++ u) = s :: lex Between u.
Proof.
  intros s u. unfold quoted.
  cbn [append lex isspace].
  change (isspace dquote) with false. change (Ascii.eqb dquote dquote) with true.
  cbv iota. rewrite append_assoc. cbn [append].
  now rewrite lex_quoted.
Qed.

(** X14.  Any text can be passed as one token: between quotes, with a
    backslash before each quote and backslash, it comes back unchanged --
    white space included -- and the tokenizer carries on after the
    closing quote. *)
Theorem split_command_quoted : forall s u,
  split_command (quoted s ++ u) = s :: split_command u.
Proof.
  intros s u. unfold split_command, quoted.
  change (lex Between (String dquote (escape s ++ String dquote EmptyString) ++ u))
    with (lex (Quoted EmptyString) ((escape s ++ String dquote EmptyString) ++ u)).
  rewrite append_assoc. cbn [append].
  apply (lex_quoted s EmptyString u).
Qed.

Lemma lex_unterminated : forall s acc,
  none_of (fun c => Ascii.eqb c dquote) s ->
  lex (Quoted acc) s = [] /\ lex (Escaped acc) s = [].
Proof.
  induction s as [|c s IH]; intros acc H; [now split|].
  destruct H as [Hc Hs]. cbn [lex]. rewrite Hc.
  destruct (Ascii.eqb c backslash); split; apply IH; assumption.
Qed.

(** X15.  A quote that is never closed swallows the rest of the line:
    the token it opens is not produced, and only the tokens before it
    remain. *)
Theorem split_command_unterminated_quote : forall t s,
  plain t ->
  none_of (fun c => Ascii.eqb c dquote) s ->
  split_command (String dquote s) = []
  /\ split_command (t ++ String " " (String dquote s)) = [t].
Proof.
  intros t s Ht Hs. unfold split_command. split.
  - cbn [lex]. change (isspace dquote) with false.
    change (Ascii.eqb dquote dquote) with true. cbv iota.
    now apply lex_unterminated.
  - rewrite lex_plain_space by (assumption || reflexivity). f_equal.
    cbn [lex]. change (isspace dquote) with false.
    change (Ascii.eqb dquote dquote) with true. cbv iota.
    now apply lex_unterminated.
Qed.

Lemma split_command_unterminated_quote_witness :
  split_command (String dquote "Buy milk") = []
  /\ split_command ("add" ++ String " " (String dquote "Buy milk")) = ["add"].
Proof.
  apply split_command_unterminated_quote.
  - repeat constructor.
  - repeat constructor.
Defined.

(* ------------------------------------------------------------------ *)
(** ** Reading lines *)

Lemma take_line_newline : forall l rest,
  none_of is_newline l ->
  take_line (l ++ String "010"%char rest) = (l, Some rest).
Proof.
  induction l as [|c l IH]; intros rest H; [reflexivity|].
  destruct H as [Hc Hl]. unfold is_newline in Hc. simpl. rewrite Hc.
  now rewrite IH.
Qed.

Lemma iteration_line : forall m line0 w l rest,
  good (cin w) = true ->
  buf (cin w) = (l ++ String "010"%char rest)%string ->
  none_of is_newline l ->
  iteration m line0 w
  = if String.eqb l EmptyString
    then (Next, m, EmptyString, after_reading rest w)
    else let (r, w') := dispatch (split_command l) m (after_reading rest w) in
         (fst r, snd r, l, w').
Proof.
  intros m line0 w l rest Hg Hb Hl.
  unfold iteration, bind, print, getline, istream_getline.
  cbn [cin file cout cerr]. rewrite Hg, Hb, take_line_newline by assumption.
  fold (after_reading rest w).
  destruct (String.eqb_spec l EmptyString) as [->|Hne]; reflexivity.
Qed.

(** X16.  On a good stream whose buffer starts with a complete line, an
    iteration consumes exactly that line and its newline, whatever [line]
    held before: an empty line only gets the prompt and changes nothing
    else; any other line is tokenized and dispatched, and the rest of the
    input is left for the next iterations. *)
Theorem iteration_reads_one_line : forall m line0 w l rest,
  good (cin w) = true ->
  buf (cin w) = (l ++ String "010"%char rest)%string ->
  none_of is_newline l ->
  iteration m line0 w
  = if String.eqb l EmptyString
    then (Next, m, EmptyString, after_reading rest w)
    else let (r, w') := dispatch (split_command l) m (after_reading rest w) in
         (fst r, snd r, l, w').
Proof.
  intros m line0 w l rest Hg Hb Hl.
  unfold iteration, bind, print, getline, istream_getline.
  cbn [cin file cout cerr]. rewrite Hg, Hb, take_line_newline by assumption.
  fold (after_reading rest w).
  destruct (String.eqb_spec l EmptyString) as [->|Hne]; reflexivity.
Qed.

(** X17.  A line that is not empty but holds white space only yields no
    token, and the loop then reads [tokens[0]] of an empty vector: the
    behaviour of the program is undefined from there. *)
Theorem blank_line_indexes_empty_vector : forall m line0 w l rest,
  good (cin w) = true ->
  buf (cin w) = (l ++ String "010"%char rest)%string ->
  none_of is_newline l ->
  blank l ->
  l <> EmptyString ->
  split_command l = []
  /\ iteration m line0 w = (Crash, m, l, after_reading rest w).
Proof.
  intros m line0 w l rest Hg Hb Hl Hblank Hne.
  assert (Ht : split_command l = []) by now apply lex_blank.
  split; [exact Ht|].
  rewrite (iteration_line m line0 w l rest Hg Hb Hl), Ht.
  now rewrite (proj2 (String.eqb_neq _ _) Hne).
Qed.

Lemma show_help_banner : forall w, show_help w = (tt, printed help_banner w).
Proof.
  intros w. unfold show_help.
  rewrite bind_print_first. cbv beta.
  repeat (rewrite bind_print_next; cbv beta).
  rewrite print_printed. reflexivity.
Qed.

(** X18.  When the first line of the input is [exit], [main] loads the
    store, prints the help banner -- the fourteen pieces of [show_help],
    from the title to the examples --, then the prompt and "Goodbye!",
    and stops with the store as loaded: the rest of the input is not
    read. *)
Theorem exit_first_stops_session : forall fuel f rest,
  let loaded := new_manager (start f ("exit" ++ endl ++ rest)) in
  main (S fuel) (start f ("exit" ++ endl ++ rest))
  = Left_loop (fst loaded)
      (mkWorld (file (snd loaded)) (mkIstream rest false false)
               (cout (snd loaded) ++ help_banner ++ ["> "; ("Goodbye!" ++ endl)%string])
               (cerr (snd loaded))).
Proof.
  intros fuel f rest. cbv zeta. unfold main.
  set (w0 := start f ("exit" ++ endl ++ rest)).
  assert (Hcin : cin (snd (new_manager w0)) = cin w0).
  { unfold new_manager, load_tasks, bind, read_file.
    destruct (content (file w0)) as [| |j].
    - destruct (writable (file w0)) eqn:Ew.
      + now rewrite save_tasks_writable.
      + now rewrite save_tasks_readonly.
    - reflexivity.
    - destruct (load_items _ _ _) as [[ts nid]|]; reflexivity. }
  destruct (new_manager w0) as [m0 w1]. cbn [fst snd] in *.
  rewrite show_help_banner, main_loop_step.
  rewrite (iteration_line m0 EmptyString (printed help_banner w1) "exit" rest).
  - change (String.eqb "exit" EmptyString) with false.
    change (split_command "exit") with ["exit"].
    assert (Hd : forall m w, dispatch ["exit"] m w = (Break, m, w)) by reflexivity.
    rewrite Hd. cbn [fst snd]. unfold print, after_reading, printed.
    cbn [file cin cout cerr]. now rewrite <- !app_assoc.
  - cbn [printed cin]. now rewrite Hcin.
  - cbn [printed cin]. now rewrite Hcin.
  - repeat constructor.
Qed.

(* ------------------------------------------------------------------ *)
(** ** Ids as text *)

Lemma leading_digits_uint_acc : forall d acc,
  leading_digits (NilEmpty.string_of_uint d) (Z.pos acc)
  = Z.pos (Pos.of_uint_acc d acc).
Proof.
  induction d as [|d IH|d IH|d IH|d IH|d IH|d IH|d IH|d IH|d IH|d IH];
    intros acc; [reflexivity|..];
    cbn [NilEmpty.string_of_uint leading_digits Pos.of_uint_acc];
    match goal with
    | |- (if isdigit ?c then _ else _) = _ => change (isdigit c) with true
    end;
    cbv iota;
    match goal with
    | |- leading_digits _ (10 * _ + digit_value ?c) = _ =>
        let v := eval vm_compute in (digit_value c) in
        change (digit_value c) with v
    end;
    rewrite <- IH; f_equal; lia.
Qed.

Lemma leading_digits_uint : forall d,
  leading_digits (NilEmpty.string_of_uint d) 0 = Z.of_N (Pos.of_uint d).
Proof.
  induction d as [|d IH|d IH|d IH|d IH|d IH|d IH|d IH|d IH|d IH|d IH];
    [reflexivity|exact IH|..];
    cbn [NilEmpty.string_of_uint leading_digits Pos.of_uint];
    match goal with
    | |- (if isdigit ?c then _ else _) = _ => change (isdigit c) with true
    end;
    cbv iota;
    match goal with
    | |- leading_digits _ (10 * 0 + digit_value ?c) = _ =>
        let v := eval vm_compute in (10 * 0 + digit_value c) in
        change (10 * 0 + digit_value c) with v
    end;
    apply leading_digits_uint_acc.
Qed.

(** The text of a positive number starts with a digit, which is neither
    white space nor a sign. *)
Lemma uint_text_head : forall p,
  exists c s,
    NilEmpty.string_of_uint (Pos.to_uint p) = String c s
    /\ isdigit c = true /\ isspace c = false
    /\ Ascii.eqb c "-" = false /\ Ascii.eqb c "+" = false.
Proof.
  intros p. pose proof (DecimalPos.Unsigned.to_uint_nonnil p) as H.
  destruct (Pos.to_uint p); [contradiction|..];
    eexists _, _; repeat split.
Qed.

Lemma stoi_shown_positive : forall p,
  Int.in_range (Z.pos p) -> stoi (show_int (Z.pos p)) = Some (Z.pos p).
Proof.
  intros p Hr. unfold show_int. cbn [Z.to_int NilEmpty.string_of_int].
  destruct (uint_text_head p) as [c [s [Hs [Hd [Hsp [Hm Hpl]]]]]].
  pose proof (leading_digits_uint (Pos.to_uint p)) as Hv.
  rewrite DecimalPos.Unsigned.of_to in Hv. rewrite Hs in Hv.
  unfold stoi. rewrite Hs. cbn [skip_space]. rewrite Hsp, Hm, Hpl.
  cbn [starts_with_digit]. rewrite Hd, Hv. cbn [Z.of_N].
  destruct Hr as [Hlo Hhi]. unfold Int.in_rangeb.
  rewrite (proj2 (Z.leb_le _ _) Hlo), (proj2 (Z.leb_le _ _) Hhi). reflexivity.
Qed.

Lemma stoi_shown_negative : forall p,
  Int.in_range (Z.neg p) -> stoi (show_int (Z.neg p)) = Some (Z.neg p).
Proof.
  intros p Hr. unfold show_int. cbn [Z.to_int NilEmpty.string_of_int].
  destruct (uint_text_head p) as [c [s [Hs [Hd [Hsp [Hm Hpl]]]]]].
  pose proof (leading_digits_uint (Pos.to_uint p)) as Hv.
  rewrite DecimalPos.Unsigned.of_to in Hv. rewrite Hs in Hv.
  unfold stoi. rewrite Hs. cbn [skip_space].
  change (isspace "-") with false. cbv beta iota.
  change (Ascii.eqb "-" "-") with true.
  cbv beta iota zeta. cbn [starts_with_digit]. rewrite Hd, Hv. cbn [Z.of_N Z.opp].
  destruct Hr as [Hlo Hhi]. unfold Int.in_rangeb.
  rewrite (proj2 (Z.leb_le _ _) Hlo), (proj2 (Z.leb_le _ _) Hhi). reflexivity.
Qed.

Lemma stoi_reads_shown : forall i, Int.in_range i -> stoi (show_int i) = Some i.
Proof.
  intros [|p|p] Hr;
    [reflexivity|now apply stoi_shown_positive|now apply stoi_shown_negative].
Qed.

(** X19.  The text [operator<<] prints for an [int] is read back by
    [std::stoi] as the same number: an id shown by the program can be
    given to [done] and [delete]. *)
Theorem stoi_show_int : forall i, Int.in_range i -> stoi (show_int i) = Some i.
Proof.
  intros i Hr. destruct i as [|p|p].
  - reflexivity.
  - apply stoi_shown_positive, Hr.
  - apply stoi_shown_negative, Hr.
Qed.

Lemma stoi_show_int_witness : stoi (show_int (-2147483648)) = Some (-2147483648).
Proof.
  apply stoi_show_int. unfold Int.in_range, Int.int_min, Int.int_max. lia.
Defined.

(* ------------------------------------------------------------------ *)
(** ** Commands in sequence *)

Lemma below_differs : forall (n : Z) (l : list Task),
  Forall (fun t => id t < n) l -> Forall (fun t => id t <> n) l.
Proof.
  intros n l H. eapply Forall_impl; [|exact H]. simpl. intros t Ht. lia.
Qed.

(** X20.  The id printed by [add_task] designates the new task: on a
    store whose ids lie below the counter, [done] with the text of that id
    completes the task just added and no other. *)
Theorem add_then_done_completes_new_task : forall d p m w,
  Int.in_range (next_id m) ->
  Forall (fun t => id t < next_id m) (tasks m) ->
  let m1 := fst (add_task d p m w) in
  let w1 := snd (add_task d p m w) in
  tasks (snd (fst (dispatch ["done"; show_int (next_id m)] m1 w1)))
  = tasks m ++ [mkTask (next_id m) d true p].
Proof.
  intros d p m w Hr Hb m1 w1.
  rewrite dispatch_done, (stoi_reads_shown _ Hr).
  assert (Ht : tasks m1 = tasks m ++ [mkTask (next_id m) d false p]).
  { subst m1. now rewrite add_task_manager. }
  rewrite (mark_done_hit (next_id m) m1 w1 (tasks m)
             (mkTask (next_id m) d false p) [] Ht (below_differs _ _ Hb) eq_refl).
  reflexivity.
Qed.

(** X21.  Deleting the task just added gives back the former tasks, in
    their order, but not the id: the counter stays advanced, so the id is
    not handed out again. *)
Theorem add_then_delete_restores_tasks : forall d p m w,
  Forall (fun t => id t < next_id m) (tasks m) ->
  let m1 := fst (add_task d p m w) in
  let w1 := snd (add_task d p m w) in
  fst (delete_task (next_id m) m1 w1)
  = mkManager (tasks m) (Int.wrap (next_id m + 1)).
Proof.
  intros d p m w Hb m1 w1.
  assert (Hm : m1 = mkManager (tasks m ++ [mkTask (next_id m) d false p])
                              (Int.wrap (next_id m + 1))).
  { subst m1. apply add_task_manager. }
  rewrite Hm, delete_task_found.
  - cbv zeta. cbn [fst tasks next_id]. f_equal.
    rewrite remove_if_filter, filter_app. cbn [filter id].
    rewrite Z.eqb_refl. cbn [negb]. rewrite app_nil_r.
    rewrite <- remove_if_filter. apply remove_if_none.
    eapply Forall_impl; [|exact Hb]. simpl. intros t Ht. apply Z.eqb_neq. lia.
  - cbn [tasks]. apply Exists_app. right. now apply Exists_cons_hd.
Qed.

Lemma add_then_delete_restores_tasks_witness :
  let m := mkManager [mkTask 1 "a" false 2; mkTask 4 "b" true 1] 5 in
  let w := start (mkFile Absent true) EmptyString in
  fst (delete_task 5 (fst (add_task "c" 3 m w)) (snd (add_task "c" 3 m w)))
  = mkManager [mkTask 1 "a" false 2; mkTask 4 "b" true 1] 6.
Proof.
  intros m w.
  apply (add_then_delete_restores_tasks "c" 3 m w).
  repeat constructor.
Defined.

(** X22.  After [mark_done i] on a store with distinct ids, the task of
    id [i] is no longer among the rows of the pending listing, and it is
    among the rows of the full listing with its flag set. *)
Theorem done_task_leaves_pending_listing : forall i m w,
  NoDup (map id (tasks m)) ->
  Exists (fun t => id t = i) (tasks m) ->
  let m' := fst (mark_done i m w) in
  Forall (fun t => id t <> i) (shown_tasks false (sort_tasks (tasks m')))
  /\ Exists (fun t => id t = i /\ completed t = true)
            (shown_tasks true (sort_tasks (tasks m'))).
Proof.
  intros i m w Hnd Hex m'.
  destruct (first_match i (tasks m) Hex) as [before [t [after [Hl [Hb Ht]]]]].
  assert (Hm : tasks m' = before ++ set_completed t :: after).
  { subst m'. now rewrite (mark_done_hit i m w before t after Hl Hb Ht). }
  assert (Ha : Forall (fun u => id u <> i) after).
  { rewrite Hl, map_app in Hnd. simpl in Hnd.
    apply NoDup_remove_2 in Hnd. rewrite Forall_forall. intros u Hu Hid.
    apply Hnd. apply in_or_app. right. rewrite Ht, <- Hid. now apply in_map. }
  split.
  - rewrite shown_tasks_pending, Forall_forall. intros u Hu.
    apply filter_In in Hu as [Hin Hc].
    apply (Permutation_in _ (Permutation_sym (sort_tasks_perm _))) in Hin.
    rewrite Hm in Hin. apply in_app_or in Hin as [Hin|[<-|Hin]].
    + rewrite Forall_forall in Hb. now apply Hb.
    + discriminate.
    + rewrite Forall_forall in Ha. now apply Ha.
  - rewrite shown_tasks_all. apply Exists_exists. exists (set_completed t). split.
    + apply (Permutation_in _ (sort_tasks_perm _)). rewrite Hm.
      apply in_or_app. right. now left.
    + now split.
Qed.

(** X23.  Whatever the text [s], the line [add "s"], with [s] between
    quotes and escaped, creates a task whose description is exactly [s]
    and whose priority is MEDIUM. *)
Theorem add_quoted_description : forall s m w,
  split_command ("add " ++ quoted s) = ["add"; s]
  /\ tasks (snd (fst (dispatch (split_command ("add " ++ quoted s)) m w)))
     = tasks m ++ [mkTask (next_id m) s false 2].
Proof.
  intros s m w.
  assert (Ht : split_command ("add " ++ quoted s) = ["add"; s]).
  { change ("add " ++ quoted s)%string with ("add" ++ String " " (quoted s))%string.
    unfold split_command. rewrite lex_plain_space; [|repeat constructor|reflexivity].
    f_equal. rewrite <- (append_empty_r (quoted s)).
    apply (lex_quoted_token s EmptyString). }
  split; [exact Ht|]. rewrite Ht, dispatch_add. cbn [add_arguments fst snd].
  pose proof (add_task_manager s 2 m w) as H.
  destruct (add_task s 2 m w) as [m' w']. cbn [fst snd] in *. now rewrite H.
Qed.

(* ------------------------------------------------------------------ *)
(** ** Loading and the file *)

(** X24.  The constructor writes the file only when [std::ifstream]
    cannot open it.  A file that can be opened for reading, well formed or
    not, is left exactly as it is, and nothing is printed on [cout].  A
    file that cannot be opened -- absent, or present but unreadable -- is
    given the document of the empty store, [null], when it can be opened
    for writing, and is left alone with a report on [cerr] when it
    cannot. *)
Theorem load_writes_only_unopened_file : forall w,
  (content (file w) <> Absent ->
   file (snd (new_manager w)) = file w
   /\ cout (snd (new_manager w)) = cout w)
  /\ (content (file w) = Absent -> writable (file w) = true ->
      file (snd (new_manager w)) = mkFile (Document JNull) true)
  /\ (content (file w) = Absent -> writable (file w) = false ->
      file (snd (new_manager w)) = file w
      /\ cerr (snd (new_manager w))
         = cerr w ++ [("Error saving tasks to file." ++ endl)%string]).
Proof.
  intros w. unfold new_manager, load_tasks, bind, read_file.
  split; [|split].
  - intros H. destruct (content (file w)) as [| |j]; [contradiction|now split|].
    destruct (load_items _ _ _) as [[ts nid]|]; now split.
  - intros -> Hw. now rewrite save_tasks_writable.
  - intros -> Hw. rewrite save_tasks_readonly by assumption. now split.
Qed.

(** X25.  After a load that failed, the first task added replaces the
    file: the store holds that task alone, with id 1, and the file holds
    the array of that one task -- what the file contained before is gone. *)
Theorem add_after_failed_load_overwrites : forall d p w,
  writable (file w) = true ->
  (content (file w) = Malformed \/
   exists j, content (file w) = Document j /\
             Exists (fun item => from_json item = None) (Json.items j)) ->
  let loaded := new_manager w in
  let added := add_task d p (fst loaded) (snd loaded) in
  tasks (fst added) = [mkTask 1 d false p]
  /\ content (file (snd added)) = Document (JArray [to_json (mkTask 1 d false p)]).
Proof.
  intros d p w Hw H loaded added.
  assert (Hl : loaded = (mkManager [] 1,
                         mkWorld (file w) (cin w) (cout w)
                           (cerr w ++ [("Error loading tasks from file. Starting with empty task list."
                                          ++ endl)%string]))).
  { subst loaded. unfold new_manager, load_tasks, bind, read_file.
    destruct H as [-> | [j [-> Hbad]]]; [reflexivity|].
    cbn [next_id]. now rewrite (load_items_throws _ [] 1 Hbad). }
  subst added. rewrite Hl. cbn [fst snd]. unfold add_task, bind.
  rewrite save_tasks_writable by assumption. split; reflexivity.
Qed.

Lemma add_after_failed_load_overwrites_witness :
  let doc := JArray [to_json (mkTask 7 "kept?" false 1); JString "oops"] in
  let w := start (mkFile (Document doc) true) EmptyString in
  let added := add_task "new" 2 (fst (new_manager w)) (snd (new_manager w)) in
  tasks (fst added) = [mkTask 1 "new" false 2]
  /\ content (file (snd added)) = Document (JArray [to_json (mkTask 1 "new" false 2)]).
Proof.
  intros doc w.
  apply (add_after_failed_load_overwrites "new" 2 w eq_refl).
  right. exists doc. split; [reflexivity|].
  apply Exists_cons_tl, Exists_cons_hd. reflexivity.
Defined.

End Program.

(* ------------------------------------------------------------------ *)
(** ** A library to run the program with *)

Lemma insert_sorted_perm : forall (A : Type) (comp : A -> A -> bool) t l,
  Permutation (t :: l) (insert_sorted comp t l).
Proof.
  induction l as [|u l IH]; simpl; [apply Permutation_refl|].
  destruct (comp u t).
  - eapply perm_trans; [apply perm_swap|]. now apply perm_skip.
  - apply Permutation_refl.
Qed.

Lemma insert_sorted_sorted : forall (A : Type) (comp : A -> A -> bool) t l,
  strict_weak_order comp ->
  StronglySorted (fun a b => comp b a = false) l ->
  StronglySorted (fun a b => comp b a = false) (insert_sorted comp t l).
Proof.
  intros A comp t l [Hasym Hneg]. induction l as [|u l IH]; intros Hs; simpl.
  - repeat constructor.
  - inversion Hs as [|? ? Hl Hu]; subst.
    destruct (comp u t) eqn:E.
    + constructor; [auto|].
      rewrite Forall_forall. intros x Hx.
      apply (Permutation_in _ (Permutation_sym (insert_sorted_perm A comp t l))) in Hx.
      destruct Hx as [<-|Hx].
      * now apply Hasym.
      * rewrite Forall_forall in Hu. auto.
    + constructor; [assumption|]. constructor; [assumption|].
      eapply Forall_impl; [|exact Hu]. simpl. intros x Hx.
      destruct (comp x t) eqn:Ext; [|reflexivity].
      destruct (Hneg x u t Ext); congruence.
Qed.

Lemma insertion_sort_perm : forall (A : Type) (comp : A -> A -> bool) l,
  Permutation l (insertion_sort comp l).
Proof.
  induction l as [|t l IH]; simpl; [constructor|].
  eapply perm_trans; [|apply insert_sorted_perm]. now apply perm_skip.
Qed.

Lemma insertion_sort_sorted : forall (A : Type) (comp : A -> A -> bool) l,
  strict_weak_order comp ->
  StronglySorted (fun a b => comp b a = false) (insertion_sort comp l).
Proof.
  intros A comp l H. induction l as [|t l IH]; simpl; [constructor|].
  now apply insert_sorted_sorted.
Qed.

(** Insertion sort meets the contract of [std::sort]; the runs below use
    it.  On stores with distinct ids every library gives the same rows
    ([sort_tasks_unique]). *)
#[export] Instance insertion_sort_library : StdSort := {|
  std_sort := @insertion_sort;
  std_sort_permutation := fun A comp l _ => insertion_sort_perm A comp l;
  std_sort_sorted := insertion_sort_sorted
|}.

(* ------------------------------------------------------------------ *)
(** ** The properties at concrete inputs *)

Lemma list_pending_all_done_prints_heading_witness :
  let m := mkManager [mkTask 1 "Buy milk" true 1] 3 in
  let w := start (mkFile Absent true) EmptyString in
  cout (snd (list_tasks false m w)) =
  [(endl ++ "TASK LIST" ++ endl)%string; ("---------" ++ endl)%string; endl].
Proof.
  intros m w.
  assert (Hne : tasks m <> []) by discriminate.
  assert (Hall : Forall (fun t => completed t = true) (tasks m)).
  { repeat constructor. }
  exact (proj1 (list_pending_all_done_prints_heading m w Hne Hall)).
Defined.

(** The scenario of the specification, run through [main]. *)
Example scenario_run :
  exists w,
    main 9 (start (mkFile Absent true) scenario)
    = Left_loop (mkManager [mkTask 1 "Buy milk" true 1] 3) w
    /\ skipn 33 (cout w)
       = [ "> "; (endl ++ "TASK LIST" ++ endl)%string; ("---------" ++ endl)%string; endl;
           "> "; ("Task with ID 99 not found." ++ endl)%string;
           "> "; ("Goodbye!" ++ endl)%string ].
Proof. eexists. split; vm_compute; reflexivity. Qed.

(** C10, as stated, fails when an earlier [-p] has set the priority (the
    task keeps that priority, not MEDIUM) and when the final [-p] follows
    a [-p] (it is consumed as that flag's value and not appended). *)
Lemma trailing_flag_counterexamples :
  let w := start (mkFile Absent true) EmptyString in
  let m := mkManager [] 1 in
  tasks (snd (fst (dispatch (split_command "add x -p low -p") m w)))
  = [mkTask 1 "x -p" false 3]
  /\ tasks (snd (fst (dispatch (split_command "add x -p -p") m w)))
     = [mkTask 1 "x" false 2].
Proof. cbv zeta. split; reflexivity. Qed.

Lemma add_trailing_flag_is_description_witness :
  let w := start (mkFile Absent true) EmptyString in
  let m := mkManager [] 1 in
  split_command "add Walk the dog -p" = "add" :: "Walk" :: ["the"; "dog"] ++ ["-p"]
  /\ tasks (snd (fst (dispatch (split_command "add Walk the dog -p") m w)))
     = [mkTask 1 "Walk the dog -p" false 2].
Proof.
  intros w m. split; [reflexivity|].
  change (split_command "add Walk the dog -p")
    with ("add" :: "Walk" :: ["the"; "dog"] ++ ["-p"]).
  rewrite (proj1 (add_trailing_flag_is_description "Walk" ["the"; "dog"] m w eq_refl)).
  reflexivity.
Defined.

Lemma dispatch_unknown_witness :
  let m := mkManager [mkTask 1 "a" false 2] 2 in
  let w := start (mkFile Absent true) EmptyString in
  dispatch (split_command "done 1 2") m w
  = (Next, m,
     printed [("Unknown command. Type 'help' for available commands." ++ endl)%string] w).
Proof.
  intros m w. change (split_command "done 1 2") with ["done"; "1"; "2"].
  apply dispatch_unknown; discriminate.
Defined.

Lemma session_file_mirrors_store_witness :
  exists m w,
    main 9 (start (mkFile Absent true) scenario) = Left_loop m w
    /\ content (file w) = Document (tasks_document (tasks m)) /\ cerr w = [].
Proof.
  destruct (main 9 (start (mkFile Absent true) scenario)) as [m w|w|m l w] eqn:E.
  - exists m, w. split; [reflexivity|].
    apply (session_file_mirrors_store 9 scenario Absent m EmptyString w).
    + now left.
    + now right.
  - vm_compute in E. discriminate.
  - vm_compute in E. discriminate.
Defined.

Lemma session_keeps_ids_distinct_witness :
  exists m w,
    main_loop 9 (mkManager [] 1) EmptyString (start (mkFile Absent true) scenario)
    = Left_loop m w
    /\ distinct_ids m.
Proof.
  destruct (main_loop 9 (mkManager [] 1) EmptyString (start (mkFile Absent true) scenario))
    as [m w|w|m l w] eqn:E.
  - exists m, w. split; [reflexivity|].
    refine (proj1 (session_keeps_ids_distinct 9 (mkManager [] 1) EmptyString
                     (start (mkFile Absent true) scenario) m w _ _ _ _)).
    + split; constructor.
    + unfold Int.int_min. simpl. lia.
    + unfold Int.int_max. simpl. lia.
    + now right.
  - vm_compute in E. discriminate.
  - vm_compute in E. discriminate.
Defined.

Lemma iteration_reads_one_line_witness :
  let w := start (mkFile Absent true) ("list" ++ endl ++ "exit" ++ endl) in
  iteration (mkManager [] 1) "old" w
  = (Next, mkManager [] 1, "list",
     printed ["No tasks found." ++ endl]%string (after_reading ("exit" ++ endl) w)).
Proof.
  intros w.
  rewrite (iteration_reads_one_line (mkManager [] 1) "old" w "list" ("exit" ++ endl)
             eq_refl eq_refl).
  - reflexivity.
  - repeat constructor.
Defined.

Lemma blank_line_indexes_empty_vector_witness :
  let w := start (mkFile Absent true) ("  " ++ endl ++ "list" ++ endl) in
  split_command "  " = []
  /\ iteration (mkManager [] 1) EmptyString w
     = (Crash, mkManager [] 1, "  ", after_reading ("list" ++ endl) w).
Proof.
  intros w.
  apply (blank_line_indexes_empty_vector (mkManager [] 1) EmptyString w
           "  " ("list" ++ endl) eq_refl eq_refl).
  - repeat constructor.
  - repeat constructor.
  - discriminate.
Defined.

Lemma add_then_done_completes_new_task_witness :
  let m := mkManager [mkTask 1 "a" false 2] 2 in
  let w := start (mkFile Absent true) EmptyString in
  tasks (snd (fst (dispatch ["done"; show_int 2]
                     (fst (add_task "b" 1 m w)) (snd (add_task "b" 1 m w)))))
  = [mkTask 1 "a" false 2; mkTask 2 "b" true 1].
Proof.
  intros m w.
  apply (add_then_done_completes_new_task "b" 1 m w).
  - unfold Int.in_range, Int.int_min, Int.int_max. simpl. lia.
  - repeat constructor.
Defined.

Lemma done_task_leaves_pending_listing_witness :
  let m := mkManager [mkTask 1 "a" false 2; mkTask 2 "b" false 1] 3 in
  let w := start (mkFile Absent true) EmptyString in
  Forall (fun t => id t <> 2)
         (shown_tasks false (sort_tasks (tasks (fst (mark_done 2 m w))))).
Proof.
  intros m w.
  refine (proj1 (done_task_leaves_pending_listing 2 m w _ _)).
  - repeat constructor; simpl; intuition discriminate.
  - apply Exists_cons_tl, Exists_cons_hd. reflexivity.
Defined.
